(** * auth0-react (Cordova fork): the native authorization coordinator and
      the provider's login operations.

    Sources embedded here:
    - [src/Auth0CordovaFork/index.js]: [closingDelayMs], [authorize] and the
      closures it creates (the agent-acquisition callback, the redirect hook,
      the agent event callback, [handleClose]);
    - [auth0-provider.tsx]: [DEFAULT_SCOPE], [dedupe], [getUniqueScopes],
      [toAuth0LoginRedirectOptions], [nativeLogIn], [loginWithRedirect],
      [getAccessTokenWithPopup], [tryGetAccessTokenWithPopupOrReLogin].

    JavaScript values are a small inductive type, strings are sequences of
    UTF-16 code units, effects are threaded through a state-and-exception
    monad over a [World] that records every call made to a collaborator. *)

From Stdlib Require Import String Ascii NArith ZArith Bool Lia Arith List.
Import ListNotations.

(* ================================================================== *)
(** ** JavaScript strings *)
(* ================================================================== *)

(** A JavaScript string is a finite sequence of UTF-16 code units. *)
Definition jsstring : Type := list N.

(** An ASCII literal as a JavaScript string. *)
Definition lit (s : string) : jsstring :=
  map N_of_ascii (list_ascii_of_string s).
Arguments lit : simpl never.

Fixpoint str_eqb (a b : jsstring) : bool :=
  match a, b with
  | [], [] => true
  | x :: a', y :: b' => N.eqb x y && str_eqb a' b'
  | _, _ => false
  end.

(** Membership of a string in an array of strings ([===] on strings). *)
Fixpoint str_mem (x : jsstring) (l : list jsstring) : bool :=
  match l with
  | [] => false
  | y :: l' => str_eqb y x || str_mem x l'
  end.

(** [String.prototype.concat] / [+] on strings. *)
Definition str_append (a b : jsstring) : jsstring := a ++ b.

(** The code units matched by [\s] and stripped by [trim]: the WhiteSpace
    and LineTerminator productions of ECMAScript. *)
Definition is_ws (c : N) : bool :=
  match c with
  | 9%N | 10%N | 11%N | 12%N | 13%N | 32%N | 160%N => true
  | 5760%N => true
  | 8232%N | 8233%N | 8239%N | 8287%N | 12288%N | 65279%N => true
  | _ => ((8192 <=? c) && (c <=? 8202))%N
  end.

Definition SPACE : N := 32%N.

(** [Array.prototype.join(' ')] on an array of strings. *)
Fixpoint join_sp (l : list jsstring) : jsstring :=
  match l with
  | [] => []
  | [x] => x
  | x :: l' => x ++ SPACE :: join_sp l'
  end.

(** [String.prototype.trim]: leading white space is dropped, then trailing
    white space. *)
Fixpoint trimStart (s : jsstring) : jsstring :=
  match s with
  | [] => []
  | c :: r => if is_ws c then trimStart r else s
  end.

Fixpoint trimEnd (s : jsstring) : jsstring :=
  match s with
  | [] => []
  | c :: r =>
      match trimEnd r with
      | [] => if is_ws c then [] else [c]
      | t => c :: t
      end
  end.

Definition trim (s : jsstring) : jsstring := trimEnd (trimStart s).

Definition starts_ws (s : jsstring) : bool :=
  match s with
  | c :: _ => is_ws c
  | [] => false
  end.

(** [s.split(/\s+/)]: the pieces of [s] between maximal runs of white
    space.  A separator at the very start or end leaves an empty piece
    there, and the empty string splits into one empty piece. *)
Fixpoint split_ws (s : jsstring) : list jsstring :=
  match s with
  | [] => [[]]
  | c :: r =>
      if is_ws c then
        if starts_ws r then split_ws r else [] :: split_ws r
      else
        match split_ws r with
        | piece :: pieces => (c :: piece) :: pieces
        | [] => [[c]]
        end
  end.

(* ================================================================== *)
(** ** JavaScript values *)
(* ================================================================== *)

#[warnings="-register-all"]
Inductive jsval : Type :=
| JUndefined
| JNull
| JBool (b : bool)
| JNum (n : Z)
| JStr (s : jsstring)
| JError (message : jsstring)            (* new Error(message) *)
| JTypeError                             (* raised by the engine *)
| JFun (id : nat)                        (* a function of the caller *)
| JObj (props : list (jsstring * jsval)).

(** ToBoolean. *)
Definition truthy (v : jsval) : bool :=
  match v with
  | JUndefined | JNull => false
  | JBool b => b
  | JNum n => negb (n =? 0)%Z
  | JStr s => match s with [] => false | _ => true end
  | _ => true
  end.

(** [v == null]. *)
Definition nullish (v : jsval) : bool :=
  match v with
  | JUndefined | JNull => true
  | _ => false
  end.

Definition typeof (v : jsval) : jsstring :=
  match v with
  | JUndefined => lit "undefined"
  | JNull => lit "object"
  | JBool _ => lit "boolean"
  | JNum _ => lit "number"
  | JStr _ => lit "string"
  | JFun _ => lit "function"
  | JError _ | JTypeError | JObj _ => lit "object"
  end.

(** [v === 'literal']. *)
Definition strict_eq_str (v : jsval) (s : jsstring) : bool :=
  match v with
  | JStr t => str_eqb t s
  | _ => false
  end.

(** The i-th actual argument of a call; a missing one is [undefined]. *)
Definition arg (i : nat) (args : list jsval) : jsval := nth i args JUndefined.

Fixpoint lookup_prop (k : jsstring) (props : list (jsstring * jsval)) : jsval :=
  match props with
  | [] => JUndefined
  | (k', v) :: rest => if str_eqb k' k then v else lookup_prop k rest
  end.

(** [v.name]; reading a property of [undefined] or [null] raises a
    TypeError, which is the [None] here. *)
Definition get_prop (v : jsval) (name : jsstring) : option jsval :=
  match v with
  | JUndefined | JNull => None
  | JObj props => Some (lookup_prop name props)
  | _ => Some JUndefined
  end.

(* ================================================================== *)
(** ** Option objects of the provider *)
(* ================================================================== *)

(** [RedirectLoginOptions], [GetTokenWithPopupOptions] and the options the
    delegated client takes, with the properties the provider reads or
    writes; [custom] holds every other property. *)
Record Options : Type := mkOptions {
  redirectUri : option jsstring;
  redirect_uri : option jsstring;
  audience : option jsstring;
  scope : option jsstring;
  custom : list (jsstring * jsval)
}.

(** The part of [Auth0ProviderOptions] the login operations read. *)
Record ClientOpts : Type := mkClientOpts {
  isNative : bool;
  co_audience : option jsstring;
  co_scope : option jsstring
}.

(** The user profile, as far as the provider looks into it. *)
Record User : Type := mkUser { updated_at : option jsstring }.

(** Reducer actions dispatched by the operations modelled here. *)
Inductive ReducerAction : Type :=
| USER_UPDATED (user : option User).

(* ================================================================== *)
(** ** The world: collaborators' state and the record of calls *)
(* ================================================================== *)

(** The function values [authorize] creates, by the place that creates
    them and the variables they capture. *)
Inductive Closure : Type :=
| OnAgent (url : jsstring) (callback : jsval)   (* function (err, agent) *)
| OnRedirect (agent : jsval)                    (* function (sessionError, redirectUrl) *)
| OnOpenEvent (callback : jsval)                (* function (error, result) *)
| HandleClose (callback : jsval).               (* var handleClose *)

(** Every call that leaves the code under study. *)
Inductive Action : Type :=
| GetAgent
| SessionStart
| SessionClosing
| SessionClean
| AgentOpen (url : jsstring)
| AgentClose
| GetOS
| SetTimeout (delay : N)
| Invoke (f : jsval) (args : list jsval)
| ClientBuildAuthorizeUrl (opts : option Options)
| ClientLoginWithRedirect (opts : option Options)
| ClientGetTokenWithPopup (opts : option Options)
| ClientGetUser
| Dispatch (a : ReducerAction).

Record Session : Type := mkSession {
  isAuthorizing : bool;
  isClosing : bool;
  current : option Closure
}.

Record Timer : Type := mkTimer { due : N; handler : Closure }.

Record World : Type := mkWorld {
  session : Session;            (* the session module's state *)
  os : jsstring;                (* what getOS() answers *)
  clock : N;                    (* milliseconds *)
  timers : list Timer;          (* pending setTimeout entries, oldest first *)
  acquirer : option Closure;    (* callback waiting in getAgent *)
  listener : option Closure;    (* event callback given to agent.open *)
  trace : list Action           (* calls made so far, oldest first *)
}.

Definition set_session (s : Session) (w : World) : World :=
  mkWorld s (os w) (clock w) (timers w) (acquirer w) (listener w) (trace w).
Definition set_clock (t : N) (w : World) : World :=
  mkWorld (session w) (os w) t (timers w) (acquirer w) (listener w) (trace w).
Definition set_timers (ts : list Timer) (w : World) : World :=
  mkWorld (session w) (os w) (clock w) ts (acquirer w) (listener w) (trace w).
Definition set_acquirer (c : option Closure) (w : World) : World :=
  mkWorld (session w) (os w) (clock w) (timers w) c (listener w) (trace w).
Definition set_listener (c : option Closure) (w : World) : World :=
  mkWorld (session w) (os w) (clock w) (timers w) (acquirer w) c (trace w).
Definition record (a : Action) (w : World) : World :=
  mkWorld (session w) (os w) (clock w) (timers w) (acquirer w) (listener w)
          (trace w ++ [a]).

(* ================================================================== *)
(** ** State and exception monad *)
(* ================================================================== *)

Inductive Completion (A : Type) : Type :=
| Normal (a : A)
| Throw (e : jsval).
Arguments Normal {A} a.
Arguments Throw {A} e.

Definition M (A : Type) : Type := World -> Completion A * World.

Definition ret {A} (a : A) : M A := fun w => (Normal a, w).
Definition throw {A} (e : jsval) : M A := fun w => (Throw e, w).
Definition bind {A B} (m : M A) (k : A -> M B) : M B :=
  fun w =>
    match m w with
    | (Normal a, w') => k a w'
    | (Throw e, w') => (Throw e, w')
    end.
(** [try { m } catch (error) { h error }]. *)
Definition try_catch {A} (m : M A) (h : jsval -> M A) : M A :=
  fun w =>
    match m w with
    | (Normal a, w') => (Normal a, w')
    | (Throw e, w') => h e w'
    end.
Definition modify (f : World -> World) : M unit := fun w => (Normal tt, f w).
Definition gets {A} (f : World -> A) : M A := fun w => (Normal (f w), w).

Declare Scope js_scope.
Delimit Scope js_scope with js.
Notation "x <- m ;; k" := (bind m (fun x => k))
  (at level 61, m at next level, right associativity) : js_scope.
Notation "m ;; k" := (bind m (fun _ => k))
  (at level 61, right associativity) : js_scope.
Open Scope js_scope.

(** The world an effectful computation leaves behind. *)
Definition exec {A} (m : M A) (w : World) : World := snd (m w).
(** Its completion. *)
Definition outcome {A} (m : M A) (w : World) : Completion A := fst (m w).

(* ================================================================== *)
(** ** Collaborators of the coordinator *)
(* ================================================================== *)

Module SessionStore.

(** Modelled from the spec: the session module ([./session]) is not among
    the sources.  Sections 3 and 4.1 of the specification: the store is
    created in the clean state, [isAuthorizing=false] and [isClosing=false],
    with no handler registered. *)
Definition clean_state : Session := mkSession false false None.

(** Modelled from the spec: [clean()] unconditionally resets the store to
    its initial state. *)
Definition clean : M unit :=
  modify (fun w => record SessionClean (set_session clean_state w)).

(** Modelled from the spec: [start(onRedirect)] marks [isAuthorizing=true]
    and registers the handler for the redirect. *)
Definition start (onRedirect : Closure) : M unit :=
  modify (fun w =>
    record SessionStart
      (set_session (mkSession true (isClosing (session w)) (Some onRedirect)) w)).

(** Modelled from the spec: [closing()] marks [isClosing=true]. *)
Definition closing : M unit :=
  modify (fun w =>
    record SessionClosing
      (set_session
         (mkSession (isAuthorizing (session w)) true (current (session w))) w)).

(** Reading the property [session.isClosing]. *)
Definition get_isClosing : M bool := gets (fun w => isClosing (session w)).

End SessionStore.

(** Modelled from the spec: the agent module ([./agent]) is not among the
    sources.  Section 6: [acquire(callback(error, agent))] hands the callback
    to the platform, which answers later. *)
Definition getAgent (k : Closure) : M unit :=
  modify (fun w => record GetAgent (set_acquirer (Some k) w)).

(** Modelled from the spec: [agent.open(url, eventCallback(error, event))]
    subscribes the callback to the agent's event stream.  Calling a method
    of [undefined] or [null] raises a TypeError. *)
Definition agent_open (agent : jsval) (url : jsstring) (k : Closure) : M unit :=
  if nullish agent then throw JTypeError
  else modify (fun w => record (AgentOpen url) (set_listener (Some k) w)).

(** Modelled from the spec: [agent.close()], no return value. *)
Definition agent_close (agent : jsval) : M unit :=
  if nullish agent then throw JTypeError
  else modify (record AgentClose).

(** Modelled from the spec: the platform query ([./utils]) is not among the
    sources; section 6: it returns the current platform family. *)
Definition getOS : M jsstring :=
  fun w => (Normal (os w), record GetOS w).

(** [setTimeout(f, delay)]: [f] runs in a later turn, once [delay]
    milliseconds have passed. *)
Definition setTimeout (f : Closure) (delay : N) : M unit :=
  modify (fun w =>
    record (SetTimeout delay)
      (set_timers (timers w ++ [mkTimer (clock w + delay) f]) w)).

(** Calling a function of the caller: the call is recorded; the function
    is taken to return [undefined] and to leave the coordinator's
    collaborators alone. *)
Definition invoke (f : jsval) (args : list jsval) : M jsval :=
  fun w => (Normal JUndefined, record (Invoke f args) w).

(* ================================================================== *)
(** ** The coordinator: [src/Auth0CordovaFork/index.js] *)
(* ================================================================== *)

Definition closingDelayMs : N := 1000.

(** [var handleClose = function () { if (session.isClosing) { session.clean();
    return callback(new Error('user canceled')); } }] *)
Definition handleClose (callback : jsval) : M jsval :=
  c <- SessionStore.get_isClosing ;;
  if c then
    SessionStore.clean ;;
    invoke callback [JError (lit "user canceled")]
  else ret JUndefined.

(** The function given to [session.start]: closes the agent and answers
    [true]. *)
Definition onRedirect (agent : jsval) (args : list jsval) : M jsval :=
  agent_close agent ;;
  ret (JBool true).

(** The function given to [agent.open]. *)
Definition onOpenEvent (callback : jsval) (args : list jsval) : M jsval :=
  let error := arg 0 args in
  let result := arg 1 args in
  if negb (nullish error) then
    SessionStore.clean ;;
    invoke callback [error]
  else
    match get_prop result (lit "event") with
    | None => throw JTypeError
    | Some ev =>
        if strict_eq_str ev (lit "closed") then
          SessionStore.closing ;;
          platform <- getOS ;;
          if str_eqb platform (lit "ios") then
            handleClose callback ;;
            (if negb (strict_eq_str ev (lit "loaded")) then ret JUndefined
             else ret JUndefined)
          else
            setTimeout (HandleClose callback) closingDelayMs ;;
            ret JUndefined
        else
          if negb (strict_eq_str ev (lit "loaded")) then ret JUndefined
          else ret JUndefined
    end.

(** The function given to [getAgent]. *)
Definition onAgent (url : jsstring) (callback : jsval) (args : list jsval)
  : M jsval :=
  let err := arg 0 args in
  let agent := arg 1 args in
  if truthy err then invoke callback [err]
  else
    SessionStore.start (OnRedirect agent) ;;
    agent_open agent url (OnOpenEvent callback) ;;
    ret JUndefined.

Definition authorize (url : jsstring) (callback : jsval) : M jsval :=
  if negb (truthy callback) || negb (str_eqb (typeof callback) (lit "function"))
  then throw (JError (lit "callback not specified or is not a function"))
  else
    getAgent (OnAgent url callback) ;;
    ret JUndefined.

(** Calling one of the coordinator's function values. *)
Definition apply (f : Closure) (args : list jsval) : M jsval :=
  match f with
  | OnAgent url callback => onAgent url callback args
  | OnRedirect agent => onRedirect agent args
  | OnOpenEvent callback => onOpenEvent callback args
  | HandleClose callback => handleClose callback
  end.

(* ================================================================== *)
(** ** The host: one turn of the event loop per stimulus *)
(* ================================================================== *)

(** Modelled from the spec: redirect delivery ([session.onRedirectUri]) is
    not among the sources.  Section 6 and properties P4 of the
    specification: the registered hook is invoked with the redirect url and
    answers whether it consumed the event; a consumed redirect ends the
    attempt and resets the store, which clears [isClosing]. *)
Definition onRedirectUri (url : jsstring) : M jsval :=
  h <- gets (fun w => current (session w)) ;;
  match h with
  | None => ret JUndefined
  | Some hook =>
      consumed <- apply hook [JNull; JStr url] ;;
      if truthy consumed then SessionStore.clean ;; ret JUndefined
      else ret JUndefined
  end.

(** What the environment can do to a running attempt. *)
Inductive Event : Type :=
| AgentReady (err agent : jsval)      (* getAgent answers *)
| OpenEvent (error result : jsval)    (* the agent reports on its event stream *)
| RedirectUri (url : jsstring)        (* the custom-scheme redirect arrives *)
| Elapse (ms : N).                    (* time passes and due timers run *)

(** A turn runs to completion; an exception it raises ends the turn and
    keeps the effects made so far. *)
Definition turn (m : M jsval) (w : World) : World := exec m w.

Definition is_due (now : N) (t : Timer) : bool := (due t <=? now)%N.

Definition fire (w : World) (t : Timer) : World :=
  turn (apply (handler t) []) w.

Definition elapse (ms : N) (w : World) : World :=
  let now := (clock w + ms)%N in
  let ready := filter (is_due now) (timers w) in
  let later := filter (fun t => negb (is_due now t)) (timers w) in
  fold_left fire ready (set_timers later (set_clock now w)).

Definition deliver (e : Event) (w : World) : World :=
  match e with
  | AgentReady err agent =>
      match acquirer w with
      | Some k => turn (apply k [err; agent]) (set_acquirer None w)
      | None => w
      end
  | OpenEvent error result =>
      match listener w with
      | Some k => turn (apply k [error; result]) w
      | None => w
      end
  | RedirectUri url => turn (onRedirectUri url) w
  | Elapse ms => elapse ms w
  end.

Definition run (evs : list Event) (w : World) : World :=
  fold_left (fun w e => deliver e w) evs w.

(** The world once the module has been loaded: [session.clean()] at the top
    of [index.js] has run. *)
Definition boot (platform : jsstring) (now : N) : World :=
  mkWorld SessionStore.clean_state platform now [] None None [].

Definition loaded (platform : jsstring) (now : N) : World :=
  exec SessionStore.clean (boot platform now).

(** The calls made to functions of the caller, oldest first. *)
Fixpoint invocations (tr : list Action) : list (jsval * list jsval) :=
  match tr with
  | [] => []
  | Invoke f args :: tr' => (f, args) :: invocations tr'
  | _ :: tr' => invocations tr'
  end.

(** One authorization attempt from a freshly loaded module. *)
Definition attempt (platform : jsstring) (now : N) (url : jsstring)
           (callback : jsval) (evs : list Event) : World :=
  run evs (exec (authorize url callback) (loaded platform now)).

(* ================================================================== *)
(** ** The provider: [auth0-provider.tsx] *)
(* ================================================================== *)

Definition DEFAULT_SCOPE : jsstring := lit "openid profile email".

(** [new Set(arr)] keeps its elements in insertion order and ignores an
    element it already holds; [Array.from] lists them in that order. *)
Definition set_add (s : list jsstring) (x : jsstring) : list jsstring :=
  if str_mem x s then s else s ++ [x].

Definition dedupe (arr : list jsstring) : list jsstring :=
  fold_left set_add arr [].

(** [(...scopes) => dedupe(scopes.join(' ').trim().split(/\s+/)).join(' ')] *)
Definition getUniqueScopes (scopes : list jsstring) : jsstring :=
  join_sp (dedupe (split_ws (trim (join_sp scopes)))).

(** [const { redirectUri, ...validOpts } = opts;
     return { ...validOpts, redirect_uri: redirectUri }] *)
Definition toAuth0LoginRedirectOptions (opts : option Options) : option Options :=
  match opts with
  | None => None
  | Some o =>
      Some (mkOptions None (redirectUri o) (audience o) (scope o) (custom o))
  end.

(** [a || b] on values of type [string | undefined]. *)
Definition or_else (a b : option jsstring) : option jsstring :=
  match a with
  | Some (_ :: _) => a
  | _ => b
  end.

(** [a || d] where [d] is a string. *)
Definition or_default (a : option jsstring) (d : jsstring) : jsstring :=
  match a with
  | Some (c :: s) => c :: s
  | _ => d
  end.

Definition opt_str_eqb (a b : option jsstring) : bool :=
  match a, b with
  | Some x, Some y => str_eqb x y
  | None, None => true
  | _, _ => false
  end.

(** The delegated OAuth client is outside the repository: what each of its
    operations answers (a resolved value or a rejection) is up to it. *)
Record Auth0Client : Type := mkClient {
  buildAuthorizeUrl_answer : option Options -> Completion jsstring;
  loginWithRedirect_answer : option Options -> Completion unit;
  getTokenWithPopup_answer : option Options -> jsval -> Completion jsstring;
  getUser_answer : Completion (option User)
}.

(** The arrow function [(error, ok) => { console.log({ error, ok }) }] that
    [nativeLogIn] hands to [authorize]. *)
Definition logOutcome : jsval := JFun 0.

Section Provider.

Variable client : Auth0Client.
Variable clientOpts : ClientOpts.
(** [tokenError] of [./utils], which is not among the sources. *)
Variable tokenError : jsval -> jsval.
(** [state.user?.updated_at] at the time the callbacks were built. *)
Variable userUpdatedAt : option jsstring.

Definition client_buildAuthorizeUrl (o : option Options) : M jsstring :=
  fun w => (buildAuthorizeUrl_answer client o,
            record (ClientBuildAuthorizeUrl o) w).

Definition client_loginWithRedirect (o : option Options) : M unit :=
  fun w => (loginWithRedirect_answer client o,
            record (ClientLoginWithRedirect o) w).

Definition client_getTokenWithPopup (o : option Options) (config : jsval)
  : M jsstring :=
  fun w => (getTokenWithPopup_answer client o config,
            record (ClientGetTokenWithPopup o) w).

Definition client_getUser : M (option User) :=
  fun w => (getUser_answer client, record ClientGetUser w).

Definition dispatch (a : ReducerAction) : M unit :=
  modify (record (Dispatch a)).

Definition nativeLogIn (options : option Options) : M unit :=
  url <- client_buildAuthorizeUrl (toAuth0LoginRedirectOptions options) ;;
  authorize url logOutcome ;;
  ret tt.

Definition loginWithRedirect (options : option Options) : M unit :=
  if isNative clientOpts then nativeLogIn options
  else client_loginWithRedirect (toAuth0LoginRedirectOptions options).

Definition getAccessTokenWithPopup (opts : option Options) (config : jsval)
  : M jsstring :=
  token <- try_catch (client_getTokenWithPopup opts config)
                     (fun error => throw (tokenError error)) ;;
  user <- client_getUser ;;
  (if negb (opt_str_eqb
              (match user with Some u => updated_at u | None => None end)
              userUpdatedAt)
   then dispatch (USER_UPDATED user) else ret tt) ;;
  ret token.

(** The [options] object [tryGetAccessTokenWithPopupOrReLogin] builds:
    a copy of [opts] with [audience] and [scope] overwritten. *)
Definition reLoginOptions (opts : option Options) : Options :=
  let copy :=
    match opts with
    | Some o => o
    | None => mkOptions None None None None []
    end in
  let audience' :=
    or_else (match opts with Some o => audience o | None => None end)
            (co_audience clientOpts) in
  let scope' :=
    getUniqueScopes
      [DEFAULT_SCOPE;
       or_default (or_else (scope copy) (co_scope clientOpts)) DEFAULT_SCOPE] in
  mkOptions (redirectUri copy) (redirect_uri copy) audience' (Some scope')
            (custom copy).

(** Resolves with a token (a string) or with [null]. *)
Definition tryGetAccessTokenWithPopupOrReLogin (opts : option Options)
  : M jsval :=
  if negb (isNative clientOpts) then
    token <- getAccessTokenWithPopup opts JUndefined ;;
    ret (JStr token)
  else
    try_catch
      (nativeLogIn (Some (reLoginOptions opts)) ;;
       ret JNull)
      (fun error => throw (tokenError error)).

End Provider.

(* ================================================================== *)
(** ** Vocabulary of the properties *)
(* ================================================================== *)

(** The pieces of a string between single white-space code units. *)
Fixpoint fields (s : jsstring) : list jsstring :=
  match s with
  | [] => [[]]
  | c :: r =>
      if is_ws c then [] :: fields r
      else
        match fields r with
        | f :: fs => (c :: f) :: fs
        | [] => [[c]]
        end
  end.

Definition nonempty (s : jsstring) : bool :=
  match s with
  | [] => false
  | _ => true
  end.

(** The white-space-separated tokens of a string: its maximal runs of
    code units that are not white space. *)
Definition tokens (s : jsstring) : list jsstring :=
  filter nonempty (fields s).

(** Each element once, at the place of its first occurrence. *)
Fixpoint first_occurrences (l : list jsstring) : list jsstring :=
  match l with
  | [] => []
  | x :: r => x :: filter (fun y => negb (str_eqb y x)) (first_occurrences r)
  end.

(** A string without white space in it. *)
Definition ws_free (s : jsstring) : bool := forallb (fun c => negb (is_ws c)) s.

(** A token: non-empty and free of white space. *)
Definition is_token (s : jsstring) : bool := nonempty s && ws_free s.

(** Whether an event object is [{ event: 'closed' }]. *)
Definition is_closed (result : jsval) : bool :=
  match get_prop result (lit "event") with
  | Some ev => strict_eq_str ev (lit "closed")
  | None => false
  end.

(** The stimuli that can make the coordinator call back: a failed
    acquisition, an error on the event stream, a ['closed'] event. *)
Definition is_trigger (e : Event) : bool :=
  match e with
  | AgentReady err _ => truthy err
  | OpenEvent error result => negb (nullish error) || is_closed result
  | _ => false
  end.

Definition triggers (evs : list Event) : nat := length (filter is_trigger evs).

(** The closures a world holds are where [authorize] puts them. *)
Definition is_OnAgent (k : option Closure) : bool :=
  match k with
  | None | Some (OnAgent _ _) => true
  | _ => false
  end.
Definition is_OnOpenEvent (k : option Closure) : bool :=
  match k with
  | None | Some (OnOpenEvent _) => true
  | _ => false
  end.
Definition is_OnRedirect (k : option Closure) : bool :=
  match k with
  | None | Some (OnRedirect _) => true
  | _ => false
  end.
Definition is_HandleClose (t : Timer) : bool :=
  match handler t with
  | HandleClose _ => true
  | _ => false
  end.

Definition well_placed (w : World) : bool :=
  is_OnAgent (acquirer w) && is_OnOpenEvent (listener w)
  && is_OnRedirect (current (session w)) && forallb is_HandleClose (timers w).

(** Sample values. *)
Definition closedEvent : jsval := JObj [(lit "event", JStr (lit "closed"))].
Definition loadedEvent : jsval := JObj [(lit "event", JStr (lit "loaded"))].
Definition someAgent : jsval := JObj [].
Definition someUrl : jsstring := lit "https://tenant.example/authorize?client_id=abc".
Definition someCallback : jsval := JFun 1.
Definition NetworkDown : jsval := JError (lit "NetworkDown").

(** An attempt whose agent has been acquired and opened, nothing else yet. *)
Definition openedOn (platform : jsstring) : World :=
  attempt platform 0 someUrl someCallback [AgentReady JNull someAgent].

(** A world that holds no closure of the coordinator. *)
Definition idle (w : World) : Prop :=
  acquirer w = None /\ listener w = None /\
  current (session w) = None /\ timers w = [].

(** Calls of the callback already made plus those a pending timer may
    still make. *)
Definition owed (w : World) : nat :=
  length (invocations (trace w)) + length (timers w).

(** A delegated client whose operations all succeed, and two provider
    configurations. *)
Definition sampleClient : Auth0Client :=
  mkClient (fun _ => Normal someUrl) (fun _ => Normal tt)
           (fun _ _ => Normal (lit "opaque-access-token")) (Normal None).
Definition nativeOpts : ClientOpts := mkClientOpts true None None.
Definition webOpts : ClientOpts := mkClientOpts false None None.
Definition sampleTokenError (error : jsval) : jsval := error.

(* ================================================================== *)
(** ** Objects as property lists: rest and spread *)
(* ================================================================== *)

(** The own properties of an object literal, in insertion order. *)
Definition Obj : Type := list (jsstring * jsval).

Fixpoint has_prop (k : jsstring) (o : Obj) : bool :=
  match o with
  | [] => false
  | (k', _) :: r => str_eqb k' k || has_prop k r
  end.

(** What a rest pattern leaves once [k] has been picked out. *)
Fixpoint obj_delete (k : jsstring) (o : Obj) : Obj :=
  match o with
  | [] => []
  | (k', v) :: r =>
      if str_eqb k' k then obj_delete k r else (k', v) :: obj_delete k r
  end.

Fixpoint obj_replace (k : jsstring) (v : jsval) (o : Obj) : Obj :=
  match o with
  | [] => []
  | (k', v') :: r =>
      if str_eqb k' k then (k', v) :: r else (k', v') :: obj_replace k v r
  end.

(** [{ ...o, k: v }]: an existing property keeps its place and takes the new
    value, a new one goes last. *)
Definition obj_set (k : jsstring) (v : jsval) (o : Obj) : Obj :=
  if has_prop k o then obj_replace k v o else o ++ [(k, v)].

Definition __VERSION__ : jsstring := lit "1.3.0".

(** [const { clientId, redirectUri, maxAge, ...validOpts } = opts;
     return { ...validOpts, client_id: clientId, redirect_uri: redirectUri,
              max_age: maxAge,
              auth0Client: { name: 'auth0-react', version: __VERSION__ } }] *)
Definition toAuth0ClientOptions (opts : Obj) : Obj :=
  let clientId := lookup_prop (lit "clientId") opts in
  let redirectUri := lookup_prop (lit "redirectUri") opts in
  let maxAge := lookup_prop (lit "maxAge") opts in
  let validOpts :=
    obj_delete (lit "maxAge")
      (obj_delete (lit "redirectUri") (obj_delete (lit "clientId") opts)) in
  obj_set (lit "auth0Client")
    (JObj [(lit "name", JStr (lit "auth0-react"));
           (lit "version", JStr __VERSION__)])
    (obj_set (lit "max_age") maxAge
       (obj_set (lit "redirect_uri") redirectUri
          (obj_set (lit "client_id") clientId validOpts))).

(** [const { children, skipRedirectCallback, onRedirectCallback, ...clientOpts }
     = opts] at the top of [Auth0Provider]. *)
Definition provider_clientOpts (opts : Obj) : Obj :=
  obj_delete (lit "onRedirectCallback")
    (obj_delete (lit "skipRedirectCallback") (obj_delete (lit "children") opts)).

(** The argument of [new Auth0Client(...)] in [Auth0Provider]. *)
Definition auth0ClientOptionsOf (opts : Obj) : Obj :=
  toAuth0ClientOptions (provider_clientOpts opts).

(** The property names [toAuth0ClientOptions] reads, drops or writes. *)
Definition client_option_names : list jsstring :=
  [lit "clientId"; lit "redirectUri"; lit "maxAge";
   lit "client_id"; lit "redirect_uri"; lit "max_age"; lit "auth0Client"].

(* ================================================================== *)
(** ** The provider's web flows: [auth0-provider.tsx] *)
(* ================================================================== *)

(** Reducer actions of the initialisation and popup flows. *)
Inductive AuthAction : Type :=
| INITIALISED (user : option User)
| ERROR (error : jsval)
| LOGIN_POPUP_STARTED
| LOGIN_POPUP_COMPLETE (user : option User).

(** Calls these flows make outside the provider. *)
Inductive WebCall : Type :=
| HasAuthParams
| ClientHandleRedirectCallback
| OnRedirectCallback (appState : jsval)
| ClientCheckSession
| ClientGetUserWeb
| ClientLoginWithPopup (opts : option Options) (config : jsval)
| ClientGetTokenSilently (opts : option Options)
| ConsoleLog (error : jsval)
| ConsoleError (error : jsval)
| DispatchAuth (a : AuthAction)
| DispatchUser (a : ReducerAction).

(** The coordinator's world together with the record of those calls. *)
Record Page : Type := mkPage {
  world : World;
  calls : list WebCall
}.

Definition PM (A : Type) : Type := Page -> Completion A * Page.

Definition pret {A} (a : A) : PM A := fun p => (Normal a, p).
Definition pthrow {A} (e : jsval) : PM A := fun p => (Throw e, p).
Definition pbind {A B} (m : PM A) (k : A -> PM B) : PM B :=
  fun p =>
    match m p with
    | (Normal a, p') => k a p'
    | (Throw e, p') => (Throw e, p')
    end.
Definition ptry {A} (m : PM A) (h : jsval -> PM A) : PM A :=
  fun p =>
    match m p with
    | (Normal a, p') => (Normal a, p')
    | (Throw e, p') => h e p'
    end.
(** A computation of the coordinator's monad, run on the page's world. *)
Definition lift {A} (m : M A) : PM A :=
  fun p =>
    match m (world p) with
    | (c, w') => (c, mkPage w' (calls p))
    end.
(** A recorded call with the answer it gets. *)
Definition call {A} (c : WebCall) (answer : Completion A) : PM A :=
  fun p => (answer, mkPage (world p) (calls p ++ [c])).

Declare Scope page_scope.
Delimit Scope page_scope with page.
Notation "x <- m ;; k" := (pbind m (fun x => k))
  (at level 61, m at next level, right associativity) : page_scope.
Notation "m ;; k" := (pbind m (fun _ => k))
  (at level 61, right associativity) : page_scope.

(** The parts of the environment these flows consult: [hasAuthParams] of
    [./utils] and further operations of the delegated client. *)
Record WebHost : Type := mkWebHost {
  hasAuthParams_answer : bool;
  handleRedirectCallback_answer : Completion jsval;   (* the [appState] *)
  checkSession_answer : Completion unit;
  loginWithPopup_answer : option Options -> jsval -> Completion unit;
  getTokenSilently_answer : option Options -> Completion jsstring
}.


Section WebFlows.

Local Open Scope page_scope.

Variable client : Auth0Client.
Variable host : WebHost.
Variable clientOpts : ClientOpts.
(** [loginError] and [tokenError] of [./utils], not among the sources. *)
Variable loginError : jsval -> jsval.
Variable tokenError : jsval -> jsval.
Variable skipRedirectCallback : bool.
Variable userUpdatedAt : option jsstring.

Definition web_getUser : PM (option User) :=
  call ClientGetUserWeb (getUser_answer client).

Definition dispatchAuth (a : AuthAction) : PM unit :=
  call (DispatchAuth a) (Normal tt).



Definition loginWithPopup (options : option Options) (config : jsval)
  : PM unit :=
  if isNative clientOpts then lift (nativeLogIn client options)
  else
    dispatchAuth LOGIN_POPUP_STARTED ;;
    opened <- ptry
                (call (ClientLoginWithPopup options config)
                      (loginWithPopup_answer host options config) ;;
                 pret true)
                (fun error =>
                   call (ConsoleError error) (Normal tt) ;;
                   dispatchAuth (ERROR (loginError error)) ;;
                   pret false) ;;
    if opened then
      user <- web_getUser ;;
      dispatchAuth (LOGIN_POPUP_COMPLETE user)
    else pret tt.

Definition getAccessTokenSilently (opts : option Options) : PM jsstring :=
  token <- ptry (call (ClientGetTokenSilently opts)
                      (getTokenSilently_answer host opts))
                (fun error => pthrow (tokenError error)) ;;
  user <- web_getUser ;;
  (if negb (opt_str_eqb
              (match user with Some u => updated_at u | None => None end)
              userUpdatedAt)
   then call (DispatchUser (USER_UPDATED user)) (Normal tt) else pret tt) ;;
  pret token.

End WebFlows.



(* ================================================================== *)
(** ** More vocabulary of the properties *)
(* ================================================================== *)

(** A report of ['closed'] without an error. *)
Definition is_closed_report (e : Event) : bool :=
  match e with
  | OpenEvent error result => nullish error && is_closed result
  | _ => false
  end.

(** The store is clean while the agent is still being waited for, and
    nothing else is registered then. *)
Definition settled (w : World) : Prop :=
  well_placed w = true /\
  (acquirer w <> None ->
   session w = SessionStore.clean_state /\ listener w = None /\ timers w = []).

(** An attempt whose agent never arrived although no error was reported:
    the store is started, nothing is subscribed. *)
Definition stranded (agent : jsval) (w : World) : Prop :=
  acquirer w = None /\ listener w = None /\ timers w = [] /\
  session w = mkSession true false (Some (OnRedirect agent)).

(** Options an application may hand to the provider. *)
Definition sampleProviderOpts : Obj :=
  [(lit "domain", JStr (lit "tenant.example"));
   (lit "clientId", JStr (lit "abc"));
   (lit "client_id", JStr (lit "stale"));
   (lit "isNative", JBool true);
   (lit "skipRedirectCallback", JBool false);
   (lit "children", JObj [])].

(* ================================================================== *)
(** ** Sample evaluations *)
(* ================================================================== *)

Example split_keeps_edge_pieces :
  split_ws (lit " a  b ") = [lit ""; lit "a"; lit "b"; lit ""].
Proof. reflexivity. Qed.

Example split_of_empty : split_ws (lit "") = [lit ""].
Proof. reflexivity. Qed.

Example getUniqueScopes_sample :
  getUniqueScopes [lit "openid profile"; lit " email  openid read:x "]
  = lit "openid profile email read:x".
Proof. reflexivity. Qed.

Example getUniqueScopes_blank : getUniqueScopes [lit "  "; lit ""] = lit "".
Proof. reflexivity. Qed.

Example scenario_E_trace :
  trace (attempt (lit "ios") 0 someUrl someCallback
           [AgentReady JNull someAgent;
            OpenEvent JNull loadedEvent;
            OpenEvent JNull closedEvent])
  = [SessionClean; GetAgent; SessionStart; AgentOpen someUrl;
     SessionClosing; GetOS; SessionClean;
     Invoke someCallback [JError (lit "user canceled")]].
Proof. reflexivity. Qed.

Example scenario_C_trace :
  trace (attempt (lit "android") 0 someUrl someCallback
           [AgentReady JNull someAgent;
            OpenEvent JNull closedEvent;
            Elapse 999; Elapse 1])
  = [SessionClean; GetAgent; SessionStart; AgentOpen someUrl;
     SessionClosing; GetOS; SetTimeout 1000; SessionClean;
     Invoke someCallback [JError (lit "user canceled")]].
Proof. reflexivity. Qed.

(* ================================================================== *)
(** ** Strings: equality and membership *)
(* ================================================================== *)

Lemma str_eqb_eq (a b : jsstring) : str_eqb a b = true <-> a = b.
Proof.
  revert b; induction a as [|x a IH]; intros [|y b]; simpl; split;
    try congruence; try reflexivity.
  - rewrite andb_true_iff, N.eqb_eq, IH. intros [-> ->]; reflexivity.
  - intros E; injection E as -> ->.
    rewrite N.eqb_refl; simpl. apply IH; reflexivity.
Qed.

Lemma str_eqb_refl (a : jsstring) : str_eqb a a = true.
Proof. apply str_eqb_eq; reflexivity. Qed.

Lemma str_eqb_neq (a b : jsstring) : str_eqb a b = false <-> a <> b.
Proof.
  rewrite <- str_eqb_eq. destruct (str_eqb a b); split; congruence.
Qed.

Lemma str_eqb_sym (a b : jsstring) : str_eqb a b = str_eqb b a.
Proof.
  destruct (str_eqb a b) eqn:E.
  - apply str_eqb_eq in E; subst. symmetry; apply str_eqb_refl.
  - symmetry. apply str_eqb_neq. apply str_eqb_neq in E. congruence.
Qed.

Lemma str_mem_In (x : jsstring) (l : list jsstring) :
  str_mem x l = true <-> In x l.
Proof.
  induction l as [|y l IH]; simpl.
  - split; [discriminate | tauto].
  - rewrite orb_true_iff, str_eqb_eq, IH. tauto.
Qed.

Lemma str_mem_app (x : jsstring) (l1 l2 : list jsstring) :
  str_mem x (l1 ++ l2) = str_mem x l1 || str_mem x l2.
Proof.
  induction l1 as [|y l1 IH]; simpl; [reflexivity|].
  rewrite IH, orb_assoc; reflexivity.
Qed.

(* ================================================================== *)
(** ** Fields, tokens and [split] *)
(* ================================================================== *)


(** Unfolding equations. *)
Lemma trimEnd_step (c : N) (r : jsstring) :
  trimEnd (c :: r) =
  match trimEnd r with
  | [] => if is_ws c then [] else [c]
  | t => c :: t
  end.
Proof. reflexivity. Qed.

Lemma fields_step (c : N) (r : jsstring) :
  fields (c :: r) =
  if is_ws c then [] :: fields r
  else match fields r with
       | f :: fs => (c :: f) :: fs
       | [] => [[c]]
       end.
Proof. reflexivity. Qed.

Lemma split_ws_step (c : N) (r : jsstring) :
  split_ws (c :: r) =
  if is_ws c then (if starts_ws r then split_ws r else [] :: split_ws r)
  else match split_ws r with
       | piece :: pieces => (c :: piece) :: pieces
       | [] => [[c]]
       end.
Proof. reflexivity. Qed.

Lemma fields_cons (s : jsstring) :
  exists f fs, fields s = f :: fs /\
               nonempty f = nonempty s && negb (starts_ws s) /\
               ws_free f = true.
Proof.
  induction s as [|c r (f & fs & E & Hne & Hfree)]; simpl.
  - exists [], []. repeat split.
  - destruct (is_ws c) eqn:W.
    + exists [], (fields r). repeat split.
    + rewrite E. exists (c :: f), fs. repeat split.
      simpl. rewrite W, Hfree. reflexivity.
Qed.

Lemma fields_ws_free (s : jsstring) :
  Forall (fun f => ws_free f = true) (fields s).
Proof.
  induction s as [|c r IH]; simpl.
  - repeat constructor.
  - destruct (is_ws c) eqn:W.
    + constructor; [reflexivity | exact IH].
    + destruct (fields r) as [|f fs].
      * repeat constructor. simpl. rewrite W. reflexivity.
      * inversion IH; subst. constructor; [|assumption].
        simpl. rewrite W. simpl. assumption.
Qed.

Lemma tokens_are_tokens (s : jsstring) :
  Forall (fun t => is_token t = true) (tokens s).
Proof.
  unfold tokens. apply Forall_forall. intros t Hin.
  apply filter_In in Hin as [Hin Hne].
  pose proof (fields_ws_free s) as Hall.
  rewrite Forall_forall in Hall.
  unfold is_token. rewrite Hne, (Hall _ Hin). reflexivity.
Qed.

Lemma tokens_ws_cons (c : N) (r : jsstring) :
  is_ws c = true -> tokens (c :: r) = tokens r.
Proof. intros W. unfold tokens. simpl. rewrite W. reflexivity. Qed.

Lemma fields_app_ws (a b : jsstring) (c : N) :
  is_ws c = true -> fields (a ++ c :: b) = fields a ++ fields b.
Proof.
  intros W. induction a as [|x a IH]; simpl.
  - rewrite W. reflexivity.
  - destruct (is_ws x); rewrite IH; [reflexivity|].
    destruct (fields_cons a) as (f & fs & E & _). rewrite E. reflexivity.
Qed.

Lemma tokens_app_ws (a b : jsstring) (c : N) :
  is_ws c = true -> tokens (a ++ c :: b) = tokens a ++ tokens b.
Proof.
  intros W. unfold tokens. rewrite (fields_app_ws a b c W).
  apply filter_app.
Qed.

Lemma fields_of_ws_free (t : jsstring) : ws_free t = true -> fields t = [t].
Proof.
  induction t as [|c t IH]; simpl; [reflexivity|].
  intros H. apply andb_true_iff in H as [Hc Ht].
  apply negb_true_iff in Hc. rewrite Hc, (IH Ht). reflexivity.
Qed.

Lemma tokens_of_token (t : jsstring) : is_token t = true -> tokens t = [t].
Proof.
  unfold is_token, tokens. intros H. apply andb_true_iff in H as [Hne Hfree].
  rewrite (fields_of_ws_free _ Hfree). simpl. rewrite Hne. reflexivity.
Qed.

Lemma tokens_join_sp (ss : list jsstring) :
  tokens (join_sp ss) = flat_map tokens ss.
Proof.
  induction ss as [|x [|y l] IH].
  - reflexivity.
  - simpl. rewrite app_nil_r. reflexivity.
  - change (join_sp (x :: y :: l)) with (x ++ SPACE :: join_sp (y :: l)).
    rewrite tokens_app_ws by reflexivity. rewrite IH. reflexivity.
Qed.

Lemma flat_map_tokens_id (l : list jsstring) :
  Forall (fun t => is_token t = true) l -> flat_map tokens l = l.
Proof.
  induction 1 as [|t l Ht _ IH]; simpl; [reflexivity|].
  rewrite (tokens_of_token _ Ht), IH. reflexivity.
Qed.

(** Trimming does not change the tokens. *)
Lemma tokens_trimStart (s : jsstring) : tokens (trimStart s) = tokens s.
Proof.
  induction s as [|c r IH]; simpl; [reflexivity|].
  destruct (is_ws c) eqn:W; [|reflexivity].
  rewrite IH. symmetry. apply tokens_ws_cons; assumption.
Qed.

Lemma fields_trimEnd (s : jsstring) :
  hd [] (fields (trimEnd s)) = hd [] (fields s) /\
  filter nonempty (tl (fields (trimEnd s))) = filter nonempty (tl (fields s)).
Proof.
  induction s as [|c r [IHh IHt]]; [split; reflexivity|].
  destruct (fields_cons r) as (f & fs & E & _).
  destruct (fields_cons (trimEnd r)) as (f' & fs' & E' & _).
  rewrite E, E' in *. simpl in IHh, IHt. subst f'.
  cbn [trimEnd]. destruct (trimEnd r) as [|x t] eqn:T.
  - simpl in E'. injection E' as <- <-. simpl in IHt.
    cbn [fields]. destruct (is_ws c) eqn:W.
    + rewrite E. simpl. split; [reflexivity | assumption].
    + rewrite E. simpl. rewrite W. simpl. split; [reflexivity | assumption].
  - rewrite (fields_step c (x :: t)), (fields_step c r), E, E'.
    destruct (is_ws c); simpl.
    + split; [reflexivity|]. rewrite IHt. reflexivity.
    + split; [reflexivity | assumption].
Qed.

Lemma tokens_hd_tl (s : jsstring) :
  tokens s = filter nonempty [hd [] (fields s)] ++ filter nonempty (tl (fields s)).
Proof.
  unfold tokens. destruct (fields_cons s) as (f & fs & E & _).
  rewrite E. simpl. destruct (nonempty f); reflexivity.
Qed.

Lemma tokens_trimEnd (s : jsstring) : tokens (trimEnd s) = tokens s.
Proof.
  rewrite (tokens_hd_tl (trimEnd s)), (tokens_hd_tl s).
  destruct (fields_trimEnd s) as [-> ->]. reflexivity.
Qed.

Lemma tokens_trim (s : jsstring) : tokens (trim s) = tokens s.
Proof. unfold trim. rewrite tokens_trimEnd. apply tokens_trimStart. Qed.

Lemma trimStart_not_ws (s : jsstring) : starts_ws (trimStart s) = false.
Proof.
  induction s as [|c r IH]; simpl; [reflexivity|].
  destruct (is_ws c) eqn:W; [assumption | simpl; assumption].
Qed.

Lemma trimEnd_starts (s : jsstring) :
  starts_ws s = false -> starts_ws (trimEnd s) = false.
Proof.
  destruct s as [|c r]; simpl; [reflexivity|].
  intros W. destruct (trimEnd r); simpl; [rewrite W; simpl|]; assumption.
Qed.

Lemma trimEnd_idem (s : jsstring) : trimEnd (trimEnd s) = trimEnd s.
Proof.
  induction s as [|c r IH]; simpl; [reflexivity|].
  destruct (trimEnd r) as [|x t] eqn:T.
  - destruct (is_ws c) eqn:W; simpl; [reflexivity | rewrite W; reflexivity].
  - rewrite (trimEnd_step c (x :: t)), IH. reflexivity.
Qed.

(** On a non-empty string that does not end in white space, [split] gives
    the tokens, after an empty piece when the string starts with white
    space. *)
Lemma split_ws_trimmed (s : jsstring) :
  s <> [] -> trimEnd s = s ->
  split_ws s = if starts_ws s then [] :: tokens s else tokens s.
Proof.
  induction s as [|c r IH]; [congruence|]. intros _ Hend.
  destruct r as [|d r'].
  - simpl in Hend. destruct (is_ws c) eqn:W; [discriminate|].
    unfold tokens. simpl. rewrite W. reflexivity.
  - assert (Hr : trimEnd (d :: r') = d :: r').
    { rewrite trimEnd_step in Hend.
      destruct (trimEnd (d :: r')) as [|x t].
      - destruct (is_ws c); discriminate.
      - injection Hend as -> ->. reflexivity. }
    specialize (IH ltac:(discriminate) Hr).
    destruct (fields_cons (d :: r')) as (f & fs & E & Hne & _).
    rewrite split_ws_step, IH.
    unfold tokens in *. rewrite (fields_step c (d :: r')), E.
    cbn [starts_ws] in *. simpl in Hne.
    destruct (is_ws c) eqn:W; destruct (is_ws d) eqn:Wd; simpl in Hne;
      simpl; rewrite Hne; try reflexivity.
    destruct f; [reflexivity | discriminate].
Qed.

Lemma split_ws_trim (s : jsstring) :
  split_ws (trim s) = match tokens s with [] => [[]] | ts => ts end.
Proof.
  rewrite <- (tokens_trim s).
  destruct (trim s) as [|c r] eqn:T; [reflexivity|].
  assert (Hs : starts_ws (c :: r) = false).
  { rewrite <- T. apply trimEnd_starts, trimStart_not_ws. }
  assert (He : trimEnd (c :: r) = c :: r).
  { rewrite <- T. apply trimEnd_idem. }
  rewrite (split_ws_trimmed (c :: r) ltac:(discriminate) He), Hs.
  unfold tokens. destruct (fields_cons (c :: r)) as (f & fs & E & Hne & _).
  rewrite E. simpl in Hs. simpl in Hne. rewrite Hs in Hne. simpl in Hne.
  simpl. rewrite Hne. reflexivity.
Qed.

(* ================================================================== *)
(** ** [dedupe] keeps first occurrences *)
(* ================================================================== *)

Lemma filter_twice {A} (p q : A -> bool) (l : list A) :
  filter p (filter q l) = filter (fun x => q x && p x) l.
Proof.
  induction l as [|x l IH]; simpl; [reflexivity|].
  destruct (q x); simpl; [destruct (p x)|]; rewrite IH; reflexivity.
Qed.

Lemma filter_all {A} (p : A -> bool) (l : list A) :
  (forall x, In x l -> p x = true) -> filter p l = l.
Proof.
  induction l as [|x l IH]; simpl; intros H; [reflexivity|].
  rewrite (H x (or_introl eq_refl)), IH; [reflexivity|].
  intros y Hy. apply H. right; assumption.
Qed.

(** What the set under construction holds after the rest of the array has
    been added: the elements already there, then the new ones in the order
    of their first occurrence. *)
Lemma fold_set_add (l acc : list jsstring) :
  fold_left set_add l acc =
  acc ++ filter (fun y => negb (str_mem y acc)) (first_occurrences l).
Proof.
  revert acc. induction l as [|x r IH]; intros acc; simpl.
  - rewrite app_nil_r. reflexivity.
  - rewrite IH. unfold set_add. destruct (str_mem x acc) eqn:Hx; simpl.
    + f_equal. rewrite filter_twice. apply filter_ext. intros y.
      destruct (str_eqb y x) eqn:Hyx; simpl; [|reflexivity].
      apply str_eqb_eq in Hyx; subst. rewrite Hx. reflexivity.
    + rewrite <- app_assoc. simpl. do 2 f_equal.
      rewrite filter_twice. apply filter_ext. intros y.
      rewrite str_mem_app. simpl. rewrite orb_false_r, (str_eqb_sym x y).
      rewrite negb_orb. apply andb_comm.
Qed.

Lemma dedupe_first_occurrences (l : list jsstring) :
  dedupe l = first_occurrences l.
Proof.
  unfold dedupe. rewrite fold_set_add. simpl.
  apply filter_all. reflexivity.
Qed.

Lemma first_occurrences_filter (p : jsstring -> bool) (l : list jsstring) :
  first_occurrences (filter p l) = filter p (first_occurrences l).
Proof.
  induction l as [|y l IH]; simpl; [reflexivity|].
  destruct (p y) eqn:Py; simpl.
  - rewrite IH, !filter_twice. f_equal. apply filter_ext.
    intros z. apply andb_comm.
  - rewrite IH, filter_twice. apply filter_ext. intros z.
    destruct (str_eqb z y) eqn:Hzy; simpl; [|reflexivity].
    apply str_eqb_eq in Hzy; subst. simpl. assumption.
Qed.

Lemma first_occurrences_idem (l : list jsstring) :
  first_occurrences (first_occurrences l) = first_occurrences l.
Proof.
  induction l as [|x r IH]; simpl; [reflexivity|].
  rewrite first_occurrences_filter, IH, filter_twice. f_equal.
  apply filter_ext. intros y. apply andb_diag.
Qed.

Lemma first_occurrences_In (x : jsstring) (l : list jsstring) :
  In x (first_occurrences l) <-> In x l.
Proof.
  induction l as [|y r IH]; simpl; [tauto|].
  rewrite filter_In, IH, negb_true_iff, str_eqb_neq.
  destruct (str_eqb y x) eqn:E.
  - apply str_eqb_eq in E. tauto.
  - apply str_eqb_neq in E. split; [tauto|].
    intros [H|H]; [tauto|]. right. split; [assumption | congruence].
Qed.

Lemma first_occurrences_NoDup (l : list jsstring) :
  NoDup (first_occurrences l).
Proof.
  induction l as [|y r IH]; simpl; constructor.
  - rewrite filter_In, negb_true_iff, str_eqb_neq. intros [_ H]. congruence.
  - apply NoDup_filter. assumption.
Qed.

Lemma first_occurrences_tokens (l : list jsstring) :
  Forall (fun t => is_token t = true) l ->
  Forall (fun t => is_token t = true) (first_occurrences l).
Proof.
  rewrite !Forall_forall. intros H x Hx. apply H.
  apply first_occurrences_In. assumption.
Qed.

Lemma flat_map_tokens_are_tokens (ss : list jsstring) :
  Forall (fun t => is_token t = true) (flat_map tokens ss).
Proof.
  rewrite <- tokens_join_sp. apply tokens_are_tokens.
Qed.

Lemma getUniqueScopes_tokens (ss : list jsstring) :
  getUniqueScopes ss = join_sp (first_occurrences (flat_map tokens ss)).
Proof.
  unfold getUniqueScopes. rewrite split_ws_trim, tokens_join_sp.
  destruct (flat_map tokens ss) as [|t ts] eqn:E; [reflexivity|].
  rewrite dedupe_first_occurrences. reflexivity.
Qed.

(** C9.  [getUniqueScopes] returns the white-space-separated tokens of its
    arguments, each once and at the place of its first occurrence, joined
    by single spaces; applying it to its own result changes nothing. *)
Theorem getUniqueScopes_first_occurrences_idempotent :
  forall ss : list jsstring,
    getUniqueScopes ss = join_sp (first_occurrences (flat_map tokens ss)) /\
    NoDup (first_occurrences (flat_map tokens ss)) /\
    (forall t, In t (first_occurrences (flat_map tokens ss)) <->
               exists s, In s ss /\ In t (tokens s)) /\
    getUniqueScopes [getUniqueScopes ss] = getUniqueScopes ss.
Proof.
  intros ss. split; [apply getUniqueScopes_tokens|].
  split; [apply first_occurrences_NoDup|].
  split.
  - intros t. rewrite first_occurrences_In, in_flat_map. reflexivity.
  - rewrite (getUniqueScopes_tokens [_]), (getUniqueScopes_tokens ss).
    simpl flat_map. rewrite app_nil_r, tokens_join_sp.
    rewrite flat_map_tokens_id, first_occurrences_idem; [reflexivity|].
    apply first_occurrences_tokens, flat_map_tokens_are_tokens.
Qed.

(* ================================================================== *)
(** ** The coordinator, one call at a time *)
(* ================================================================== *)

Lemma invocations_app (a b : list Action) :
  invocations (a ++ b) = invocations a ++ invocations b.
Proof.
  induction a as [|x a IH]; simpl; [reflexivity|].
  destruct x; simpl; rewrite IH; reflexivity.
Qed.

Lemma typeof_function (v : jsval) :
  typeof v = lit "function" -> exists id, v = JFun id.
Proof.
  destruct v; intros H; try (vm_compute in H; discriminate).
  eexists; reflexivity.
Qed.

Lemma handleClose_closing (callback : jsval) (w : World) :
  isClosing (session w) = true ->
  handleClose callback w =
  (Normal JUndefined,
   record (Invoke callback [JError (lit "user canceled")])
     (record SessionClean (set_session SessionStore.clean_state w))).
Proof.
  intros H. unfold handleClose, bind, SessionStore.get_isClosing, gets.
  rewrite H. reflexivity.
Qed.

Lemma handleClose_not_closing (callback : jsval) (w : World) :
  isClosing (session w) = false ->
  handleClose callback w = (Normal JUndefined, w).
Proof.
  intros H. unfold handleClose, bind, SessionStore.get_isClosing, gets.
  rewrite H. reflexivity.
Qed.

Lemma onOpenEvent_error (callback error result : jsval) (w : World) :
  nullish error = false ->
  onOpenEvent callback [error; result] w =
  (Normal JUndefined,
   record (Invoke callback [error])
     (record SessionClean (set_session SessionStore.clean_state w))).
Proof.
  intros H. unfold onOpenEvent, arg. cbn [nth]. rewrite H. reflexivity.
Qed.

Lemma is_closed_inv (result : jsval) :
  is_closed result = true ->
  exists ev, get_prop result (lit "event") = Some ev /\
             strict_eq_str ev (lit "closed") = true.
Proof.
  unfold is_closed. destruct (get_prop result (lit "event")) as [ev|];
    [|discriminate].
  intros H. exists ev. split; [reflexivity | assumption].
Qed.

(** The world right after [session.closing()] and [getOS()]. *)
Lemma onOpenEvent_closed (callback error result : jsval) (w : World) :
  nullish error = true -> is_closed result = true ->
  onOpenEvent callback [error; result] w =
  let w1 :=
    record GetOS
      (record SessionClosing
         (set_session
            (mkSession (isAuthorizing (session w)) true (current (session w)))
            w)) in
  if str_eqb (os w) (lit "ios") then
    (Normal JUndefined,
     record (Invoke callback [JError (lit "user canceled")])
       (record SessionClean (set_session SessionStore.clean_state w1)))
  else
    (Normal JUndefined,
     record (SetTimeout closingDelayMs)
       (set_timers
          (timers w ++ [mkTimer (clock w + closingDelayMs) (HandleClose callback)])
          w1)).
Proof.
  intros Hn Hc. apply is_closed_inv in Hc as (ev & G & Hev).
  unfold onOpenEvent, arg. cbn [nth]. rewrite Hn, G, Hev.
  unfold bind, SessionStore.closing, modify, getOS.
  cbn [negb os record set_session].
  destruct (str_eqb (os w) (lit "ios")).
  - rewrite handleClose_closing by reflexivity.
    destruct (negb (strict_eq_str ev (lit "loaded"))); reflexivity.
  - reflexivity.
Qed.

Lemma onOpenEvent_ignored (callback error result : jsval) (w : World) :
  nullish error = true -> is_closed result = false ->
  exists c, onOpenEvent callback [error; result] w = (c, w).
Proof.
  intros Hn Hc. unfold onOpenEvent, arg. cbn [nth]. rewrite Hn. simpl negb. cbv iota.
  unfold is_closed in Hc.
  destruct (get_prop result (lit "event")) as [ev|].
  - rewrite Hc. destruct (negb (strict_eq_str ev (lit "loaded")));
      eexists; reflexivity.
  - eexists; reflexivity.
Qed.

(** C5.  With a callback that is missing or not a function, [authorize]
    throws at once and leaves the world as it found it: no agent is asked
    for, the session store is not started, nothing is opened. *)
Theorem authorize_rejects_missing_callback :
  forall (url : jsstring) (callback : jsval) (w : World),
    truthy callback = false \/ typeof callback <> lit "function" ->
    authorize url callback w =
    (Throw (JError (lit "callback not specified or is not a function")), w).
Proof.
  intros url callback w H. unfold authorize.
  destruct callback; try reflexivity.
  - destruct b; reflexivity.
  - destruct (n =? 0)%Z eqn:E; simpl; rewrite E; reflexivity.
  - destruct s; reflexivity.
  - destruct H as [H|H]; [discriminate | elim H; reflexivity].
Qed.

Lemma undefined_callback_is_rejected :
  authorize someUrl JUndefined (loaded (lit "ios") 0) =
  (Throw (JError (lit "callback not specified or is not a function")),
   loaded (lit "ios") 0).
Proof.
  apply authorize_rejects_missing_callback. left. reflexivity.
Defined.

(** C7.  When the agent's event stream reports an error that is not
    [null]/[undefined], the handler calls [session.clean()], which leaves
    [isAuthorizing=false] and [isClosing=false], then calls
    [callback(error)], and does nothing else. *)
Theorem open_error_cleans_then_calls_back :
  forall (callback error result : jsval) (w : World),
    listener w = Some (OnOpenEvent callback) ->
    nullish error = false ->
    let w' := deliver (OpenEvent error result) w in
    w' = record (Invoke callback [error])
           (record SessionClean (set_session SessionStore.clean_state w)) /\
    trace w' = trace w ++ [SessionClean; Invoke callback [error]] /\
    isAuthorizing (session w') = false /\
    isClosing (session w') = false.
Proof.
  intros callback error result w Hl Hn. cbv zeta.
  unfold deliver. rewrite Hl. unfold turn, exec, apply.
  rewrite onOpenEvent_error by assumption. simpl.
  rewrite <- app_assoc. repeat split; reflexivity.
Qed.

Lemma open_error_on_android_example :
  trace (deliver (OpenEvent NetworkDown JUndefined) (openedOn (lit "android")))
  = trace (openedOn (lit "android"))
    ++ [SessionClean; Invoke someCallback [NetworkDown]].
Proof.
  exact (proj1 (proj2
    (open_error_cleans_then_calls_back someCallback NetworkDown JUndefined
       (openedOn (lit "android")) eq_refl eq_refl))).
Defined.

(** C2.  On iOS a ['closed'] event is confirmed as a cancellation inside
    the handler itself: [session.closing()], then [session.clean()], then
    [callback(new Error('user canceled'))]; no timer is set and no time
    passes. *)
Theorem closed_on_ios_cancels_synchronously :
  forall (callback error result : jsval) (w : World),
    listener w = Some (OnOpenEvent callback) ->
    nullish error = true ->
    is_closed result = true ->
    os w = lit "ios" ->
    let w' := deliver (OpenEvent error result) w in
    trace w' = trace w ++ [SessionClosing; GetOS; SessionClean;
                           Invoke callback [JError (lit "user canceled")]] /\
    session w' = SessionStore.clean_state /\
    timers w' = timers w /\
    clock w' = clock w.
Proof.
  intros callback error result w Hl Hn Hc Hos. cbv zeta.
  unfold deliver. rewrite Hl. unfold turn, exec, apply.
  rewrite onOpenEvent_closed by assumption. cbv zeta.
  rewrite Hos, str_eqb_refl. simpl.
  rewrite <- !app_assoc. repeat split; reflexivity.
Qed.

Lemma ios_closed_example :
  trace (deliver (OpenEvent JNull closedEvent) (openedOn (lit "ios")))
  = trace (openedOn (lit "ios"))
    ++ [SessionClosing; GetOS; SessionClean;
        Invoke someCallback [JError (lit "user canceled")]].
Proof.
  exact (proj1
    (closed_on_ios_cancels_synchronously someCallback JNull closedEvent
       (openedOn (lit "ios")) eq_refl eq_refl eq_refl eq_refl)).
Defined.

(* ------------------------------------------------------------------ *)
(** *** Timers *)

Lemma set_clock_same_timers (w : World) (t : N) (ts : list Timer) :
  timers w = ts -> set_timers ts (set_clock t w) = set_clock t w.
Proof. intros <-. destruct w; reflexivity. Qed.

Lemma elapse_single_pending (w : World) (t : Timer) (ms : N) :
  timers w = [t] -> (clock w + ms < due t)%N ->
  elapse ms w = set_clock (clock w + ms) w.
Proof.
  intros Ht Hlt. unfold elapse. rewrite Ht. simpl. unfold is_due.
  apply N.leb_gt in Hlt. rewrite Hlt. simpl.
  apply set_clock_same_timers; assumption.
Qed.

Lemma elapse_single_due (w : World) (t : Timer) (ms : N) :
  timers w = [t] -> (due t <= clock w + ms)%N ->
  elapse ms w = fire (set_timers [] (set_clock (clock w + ms) w)) t.
Proof.
  intros Ht Hle. unfold elapse. rewrite Ht. simpl. unfold is_due.
  apply N.leb_le in Hle. rewrite Hle. reflexivity.
Qed.

Lemma closed_off_ios (callback error result : jsval) (w : World) :
  listener w = Some (OnOpenEvent callback) ->
  nullish error = true ->
  is_closed result = true ->
  os w <> lit "ios" ->
  deliver (OpenEvent error result) w =
  record (SetTimeout closingDelayMs)
    (set_timers
       (timers w ++ [mkTimer (clock w + closingDelayMs) (HandleClose callback)])
       (record GetOS
          (record SessionClosing
             (set_session
                (mkSession (isAuthorizing (session w)) true
                           (current (session w))) w)))).
Proof.
  intros Hl Hn Hc Hos.
  unfold deliver. rewrite Hl. unfold turn, exec, apply.
  rewrite onOpenEvent_closed by assumption. cbv zeta.
  apply str_eqb_neq in Hos. rewrite Hos. reflexivity.
Qed.

(** C3.  Off iOS a ['closed'] event only schedules [handleClose] for 1000 ms
    later.  Until the clock has advanced by 1000 ms the timer is not due and
    nothing runs; when it runs with [isClosing] still set, the session is
    cleaned and the callback is called once with [Error('user canceled')]. *)
Theorem closed_off_ios_cancels_after_delay :
  forall (callback error result : jsval) (w : World),
    listener w = Some (OnOpenEvent callback) ->
    nullish error = true ->
    is_closed result = true ->
    os w <> lit "ios" ->
    let w1 := deliver (OpenEvent error result) w in
    let t := mkTimer (clock w + 1000) (HandleClose callback) in
    (trace w1 = trace w ++ [SessionClosing; GetOS; SetTimeout 1000] /\
     timers w1 = timers w ++ [t] /\
     isClosing (session w1) = true /\
     clock w1 = clock w) /\
    (forall now : N, (now < clock w + 1000)%N -> is_due now t = false) /\
    (forall (w2 : World) (ms : N),
        timers w2 = [t] ->
        (clock w2 + ms < clock w + 1000)%N ->
        deliver (Elapse ms) w2 = set_clock (clock w2 + ms) w2) /\
    (forall w2 : World,
        isClosing (session w2) = true ->
        fire w2 t =
        record (Invoke callback [JError (lit "user canceled")])
          (record SessionClean (set_session SessionStore.clean_state w2))) /\
    (forall (w2 : World) (ms : N),
        timers w2 = [t] ->
        isClosing (session w2) = true ->
        (clock w + 1000 <= clock w2 + ms)%N ->
        let w3 := deliver (Elapse ms) w2 in
        trace w3 = trace w2 ++ [SessionClean;
                                Invoke callback [JError (lit "user canceled")]] /\
        session w3 = SessionStore.clean_state /\
        timers w3 = []).
Proof.
  intros callback error result w Hl Hn Hc Hos. cbv zeta.
  rewrite (closed_off_ios callback error result w Hl Hn Hc Hos).
  split; [|split; [|split; [|split]]].
  - simpl. rewrite <- !app_assoc. repeat split; reflexivity.
  - intros now Hlt. unfold is_due. simpl. apply N.leb_gt. exact Hlt.
  - intros w2 ms Ht Hlt. simpl.
    apply elapse_single_pending with (1 := Ht). exact Hlt.
  - intros w2 Hcl. unfold fire, turn, exec. cbn [handler apply].
    rewrite handleClose_closing by exact Hcl. reflexivity.
  - intros w2 ms Ht Hcl Hle. simpl deliver.
    rewrite (elapse_single_due w2 _ ms Ht) by exact Hle.
    unfold fire, turn, exec. cbn [handler apply].
    rewrite handleClose_closing by exact Hcl. simpl.
    rewrite <- app_assoc. repeat split; reflexivity.
Qed.

Lemma android_closed_then_1000ms_example :
  let w1 := deliver (OpenEvent JNull closedEvent) (openedOn (lit "android")) in
  trace (deliver (Elapse 1000) w1)
  = trace w1 ++ [SessionClean; Invoke someCallback [JError (lit "user canceled")]].
Proof.
  exact (proj1 (proj2 (proj2 (proj2 (proj2
    (closed_off_ios_cancels_after_delay someCallback JNull closedEvent
       (openedOn (lit "android")) eq_refl eq_refl eq_refl
       ltac:(discriminate)))))
    (deliver (OpenEvent JNull closedEvent) (openedOn (lit "android")))
    1000%N eq_refl eq_refl ltac:(discriminate))).
Defined.

Lemma onRedirectUri_consumed (agent : jsval) (url : jsstring) (w : World) :
  current (session w) = Some (OnRedirect agent) ->
  nullish agent = false ->
  exec (onRedirectUri url) w =
  record SessionClean
    (set_session SessionStore.clean_state (record AgentClose w)).
Proof.
  intros Hc Hn. unfold exec, onRedirectUri, bind, gets. rewrite Hc.
  cbn [apply]. unfold onRedirect, agent_close, bind. rewrite Hn. reflexivity.
Qed.

(** C4.  Off iOS, when [isClosing] has been cleared by the time the timer of
    a ['closed'] event runs, [handleClose] does nothing: no [session.clean()],
    no call of the callback.  A redirect delivered inside the 1000 ms window
    clears the flag in this way. *)
Theorem cleared_flag_disarms_deferred_cancel :
  forall (callback error result : jsval) (w : World),
    listener w = Some (OnOpenEvent callback) ->
    nullish error = true ->
    is_closed result = true ->
    os w <> lit "ios" ->
    let w1 := deliver (OpenEvent error result) w in
    let t := mkTimer (clock w + 1000) (HandleClose callback) in
    timers w1 = timers w ++ [t] /\
    (forall w2 : World,
        isClosing (session w2) = false ->
        handleClose callback w2 = (Normal JUndefined, w2) /\
        fire w2 t = w2) /\
    (forall (w2 : World) (ms : N),
        timers w2 = [t] ->
        isClosing (session w2) = false ->
        (clock w + 1000 <= clock w2 + ms)%N ->
        deliver (Elapse ms) w2 = set_timers [] (set_clock (clock w2 + ms) w2)) /\
    (forall (agent : jsval) (url : jsstring) (ms1 ms2 : N),
        timers w = [] ->
        current (session w) = Some (OnRedirect agent) ->
        nullish agent = false ->
        (ms1 < 1000)%N ->
        (1000 <= ms1 + ms2)%N ->
        let w4 := run [Elapse ms1; RedirectUri url; Elapse ms2] w1 in
        trace w4 = trace w ++ [SessionClosing; GetOS; SetTimeout 1000;
                               AgentClose; SessionClean] /\
        invocations (trace w4) = invocations (trace w) /\
        session w4 = SessionStore.clean_state /\
        timers w4 = []).
Proof.
  intros callback error result w Hl Hn Hc Hos. cbv zeta.
  rewrite (closed_off_ios callback error result w Hl Hn Hc Hos).
  split; [|split; [|split]].
  - reflexivity.
  - intros w2 H. unfold fire, turn, exec. cbn [handler apply].
    rewrite handleClose_not_closing by assumption. split; reflexivity.
  - intros w2 ms Ht Hcl Hle. simpl deliver.
    rewrite (elapse_single_due w2 _ ms Ht) by exact Hle.
    unfold fire, turn, exec. cbn [handler apply].
    rewrite handleClose_not_closing by exact Hcl. reflexivity.
  - intros agent url ms1 ms2 Hts Hcur Hag H1 H2.
    rewrite Hts. cbn [app].
    set (w4 := run _ _).
    eassert (Hw4 : w4 = _).
    { subst w4. unfold run. cbn [fold_left deliver].
      rewrite (elapse_single_pending _ (mkTimer (clock w + closingDelayMs)
                                                (HandleClose callback)) ms1)
        by (simpl; unfold closingDelayMs; try reflexivity; lia).
      unfold turn at 1.
      rewrite (onRedirectUri_consumed agent url) by (simpl; assumption).
      rewrite (elapse_single_due _ (mkTimer (clock w + closingDelayMs)
                                            (HandleClose callback)) ms2)
        by (simpl; unfold closingDelayMs; try reflexivity; lia).
      unfold fire, turn, exec. cbn [handler apply].
      rewrite handleClose_not_closing by reflexivity. reflexivity. }
    clearbody w4. subst w4. simpl.
    rewrite <- !app_assoc. simpl.
    rewrite invocations_app. simpl. rewrite app_nil_r.
    repeat split; reflexivity.
Qed.

Lemma android_redirect_in_window_example :
  let w1 := deliver (OpenEvent JNull closedEvent) (openedOn (lit "android")) in
  invocations
    (trace (run [Elapse 400; RedirectUri (lit "app://callback"); Elapse 600] w1))
  = invocations (trace (openedOn (lit "android"))).
Proof.
  exact (proj1 (proj2 (proj2 (proj2 (proj2
    (cleared_flag_disarms_deferred_cancel someCallback JNull closedEvent
       (openedOn (lit "android")) eq_refl eq_refl eq_refl
       ltac:(discriminate))))
    someAgent (lit "app://callback") 400%N 600%N eq_refl eq_refl eq_refl
    eq_refl ltac:(discriminate)))).
Defined.

(* ------------------------------------------------------------------ *)
(** *** An attempt that holds no closure stays silent *)

Lemma deliver_idle (e : Event) (w : World) :
  idle w -> exists t, deliver e w = set_clock t w.
Proof.
  intros (Ha & Hl & Hc & Ht). destruct e as [err agent|error result|url|ms].
  - exists (clock w). simpl. rewrite Ha. destruct w; reflexivity.
  - exists (clock w). simpl. rewrite Hl. destruct w; reflexivity.
  - exists (clock w). simpl.
    unfold turn, exec, onRedirectUri, bind, gets. rewrite Hc.
    destruct w; reflexivity.
  - exists (clock w + ms)%N. simpl. unfold elapse. rewrite Ht. simpl.
    apply set_clock_same_timers. assumption.
Qed.

Lemma run_idle (evs : list Event) (w : World) :
  idle w -> exists t, run evs w = set_clock t w.
Proof.
  revert w. induction evs as [|e evs IH]; intros w Hi.
  - exists (clock w). destruct w; reflexivity.
  - destruct (deliver_idle e w Hi) as [t Ht].
    unfold run in *. simpl. rewrite Ht.
    destruct (IH (set_clock t w)) as [t' Ht'].
    + destruct Hi as (Ha & Hl & Hc & Hts). repeat split; assumption.
    + exists t'. rewrite Ht'. reflexivity.
Qed.

(** C6.  When the acquisition of the agent fails with [err], the callback
    is called exactly once, with [err]; nothing is opened and
    [session.start] is never called, so the store stays clean, whatever
    the environment does afterwards. *)
Theorem failed_acquisition_reported_once :
  forall (platform : jsstring) (now : N) (url : jsstring)
         (callback err agent : jsval) (evs : list Event),
    typeof callback = lit "function" ->
    truthy err = true ->
    let w := attempt platform now url callback (AgentReady err agent :: evs) in
    trace w = [SessionClean; GetAgent; Invoke callback [err]] /\
    invocations (trace w) = [(callback, [err])] /\
    session w = SessionStore.clean_state /\
    listener w = None.
Proof.
  intros platform now url callback err agent evs Hf He. cbv zeta.
  apply typeof_function in Hf as [id ->].
  unfold attempt, run. cbn [fold_left].
  change (fold_left (fun w e => deliver e w) evs) with (run evs).
  set (w1 := deliver _ _).
  assert (Hw1 : w1 = mkWorld SessionStore.clean_state platform now [] None None
                       [SessionClean; GetAgent; Invoke (JFun id) [err]]).
  { subst w1. unfold deliver, loaded, exec, authorize. simpl.
    unfold turn, exec, onAgent, arg. cbn [nth]. rewrite He. reflexivity. }
  destruct (run_idle evs w1) as [t Ht].
  { rewrite Hw1. repeat split. }
  rewrite Ht, Hw1. simpl. repeat split.
Qed.

Lemma network_down_reported_once :
  invocations
    (trace (attempt (lit "android") 0 someUrl someCallback
              [AgentReady NetworkDown JUndefined;
               OpenEvent JNull closedEvent; Elapse 5000]))
  = [(someCallback, [NetworkDown])].
Proof.
  exact (proj1 (proj2
    (failed_acquisition_reported_once (lit "android") 0 someUrl someCallback
       NetworkDown JUndefined [OpenEvent JNull closedEvent; Elapse 5000]
       eq_refl eq_refl))).
Defined.

(* ------------------------------------------------------------------ *)
(** *** How often the callback can be called *)

Lemma well_placed_iff (w : World) :
  well_placed w = true <->
  is_OnAgent (acquirer w) = true /\ is_OnOpenEvent (listener w) = true /\
  is_OnRedirect (current (session w)) = true /\
  forallb is_HandleClose (timers w) = true.
Proof. unfold well_placed. rewrite !andb_true_iff. tauto. Qed.

Lemma length_invocations_snoc (tr : list Action) (a : Action) :
  length (invocations (tr ++ [a])) <= S (length (invocations tr)).
Proof.
  rewrite invocations_app, length_app. destruct a; simpl; lia.
Qed.

Lemma filter_split_length {A} (p : A -> bool) (l : list A) :
  length (filter p l) + length (filter (fun x => negb (p x)) l) = length l.
Proof.
  induction l as [|x l IH]; simpl; [reflexivity|].
  destruct (p x); simpl; lia.
Qed.

Lemma forallb_filter {A} (q p : A -> bool) (l : list A) :
  forallb q l = true -> forallb q (filter p l) = true.
Proof.
  induction l as [|x l IH]; simpl; [reflexivity|].
  rewrite andb_true_iff. intros [Hx Hl].
  destruct (p x); simpl; [rewrite Hx|]; auto.
Qed.

Lemma fire_HandleClose (t : Timer) (w : World) :
  is_HandleClose t = true -> well_placed w = true ->
  well_placed (fire w t) = true /\
  timers (fire w t) = timers w /\
  length (invocations (trace (fire w t)))
  <= S (length (invocations (trace w))).
Proof.
  intros Ht Hw. destruct t as [d h]. unfold is_HandleClose in Ht. simpl in Ht.
  destruct h as [| | |callback]; try discriminate.
  apply well_placed_iff in Hw as (Ha & Hl & Hc & Hts).
  unfold fire, turn, exec. cbn [handler apply].
  destruct (isClosing (session w)) eqn:E.
  - rewrite handleClose_closing by assumption. simpl.
    split; [|split].
    + apply well_placed_iff. simpl. auto.
    + reflexivity.
    + rewrite <- app_assoc, invocations_app, length_app. simpl. lia.
  - rewrite handleClose_not_closing by assumption. simpl.
    split; [|split]; [|reflexivity|lia].
    apply well_placed_iff. auto.
Qed.

Lemma fire_all (ts : list Timer) (w : World) :
  forallb is_HandleClose ts = true -> well_placed w = true ->
  well_placed (fold_left fire ts w) = true /\
  timers (fold_left fire ts w) = timers w /\
  length (invocations (trace (fold_left fire ts w)))
  <= length (invocations (trace w)) + length ts.
Proof.
  revert w. induction ts as [|t ts IH]; intros w Hts Hw; simpl.
  - repeat split; [assumption | lia].
  - simpl in Hts. apply andb_true_iff in Hts as [Ht Hts].
    destruct (fire_HandleClose t w Ht Hw) as (Hw' & Htm & Hlen).
    destruct (IH (fire w t) Hts Hw') as (Hw'' & Htm' & Hlen').
    repeat split; [assumption | congruence | lia].
Qed.

Lemma deliver_owed (e : Event) (w : World) :
  well_placed w = true ->
  well_placed (deliver e w) = true /\
  owed (deliver e w) <= owed w + (if is_trigger e then 1 else 0).
Proof.
  intros Hw. pose proof Hw as Hw0.
  apply well_placed_iff in Hw as (Ha & Hl & Hc & Hts).
  destruct e as [err agent|error result|url|ms]; cbn [deliver is_trigger].
  - (* the agent is ready *)
    destruct (acquirer w) as [k|] eqn:Ek;
      [|split; [assumption | lia]].
    destruct k as [u callback| | |]; try discriminate.
    unfold turn, exec. cbn [apply]. unfold onAgent, arg. cbn [nth].
    destruct (truthy err).
    + simpl. split.
      * apply well_placed_iff. simpl. auto.
      * unfold owed. simpl.
        pose proof (length_invocations_snoc (trace w)
                      (Invoke callback [err])). lia.
    + unfold bind, SessionStore.start, modify, agent_open.
      destruct (nullish agent); simpl.
      * split; [apply well_placed_iff; simpl; auto|].
        unfold owed. simpl. rewrite invocations_app. simpl.
        rewrite app_nil_r. lia.
      * split; [apply well_placed_iff; simpl; auto|].
        unfold owed. simpl. rewrite <- app_assoc, invocations_app. simpl.
        rewrite app_nil_r. lia.
  - (* the agent reports on its event stream *)
    destruct (listener w) as [k|] eqn:Ek;
      [|split; [assumption | lia]].
    destruct k as [| |callback|]; try discriminate.
    unfold turn, exec. cbn [apply].
    destruct (nullish error) eqn:En.
    + destruct (is_closed result) eqn:Ecl; cbn [negb orb].
      * rewrite onOpenEvent_closed by assumption. cbv zeta.
        destruct (str_eqb (os w) (lit "ios")); simpl.
        -- split; [apply well_placed_iff; simpl; rewrite Ek; auto|].
           unfold owed. simpl. rewrite <- !app_assoc, invocations_app.
           rewrite length_app. simpl. lia.
        -- split.
           ++ apply well_placed_iff. simpl. rewrite Ek.
              rewrite forallb_app, Hts. auto.
           ++ unfold owed. simpl. rewrite <- !app_assoc, invocations_app.
              rewrite !length_app. simpl. lia.
      * destruct (onOpenEvent_ignored callback error result w En Ecl)
          as [c ->]. simpl. split; [assumption | lia].
    + rewrite onOpenEvent_error by assumption. simpl.
      split; [apply well_placed_iff; simpl; rewrite Ek; auto|].
      unfold owed. simpl. rewrite <- !app_assoc, invocations_app.
      rewrite length_app. simpl. lia.
  - (* a redirect arrives *)
    unfold turn, exec, onRedirectUri, bind, gets.
    destruct (current (session w)) as [k|] eqn:Ek;
      [|simpl; split; [assumption | lia]].
    destruct k as [|agent| |]; try discriminate.
    cbn [apply]. unfold onRedirect, agent_close, bind.
    destruct (nullish agent); simpl.
    + split; [assumption | lia].
    + split; [apply well_placed_iff; simpl; auto|].
      unfold owed. simpl. rewrite <- !app_assoc, invocations_app. simpl.
      rewrite app_nil_r. lia.
  - (* time passes *)
    unfold elapse.
    set (now := (clock w + ms)%N).
    set (w0 := set_timers _ _).
    assert (Hw0' : well_placed w0 = true).
    { apply well_placed_iff. subst w0. simpl.
      repeat split; try assumption. apply forallb_filter; assumption. }
    destruct (fire_all (filter (is_due now) (timers w)) w0
                (forallb_filter _ _ _ Hts) Hw0') as (Hwp & Htm & Hlen).
    split; [assumption|]. unfold owed. rewrite Htm. subst w0. simpl in *.
    pose proof (filter_split_length (is_due now) (timers w)). lia.
Qed.

Lemma run_owed (evs : list Event) (w : World) :
  well_placed w = true ->
  well_placed (run evs w) = true /\
  owed (run evs w) <= owed w + triggers evs.
Proof.
  revert w. induction evs as [|e evs IH]; intros w Hw.
  - simpl. split; [assumption | unfold triggers; simpl; lia].
  - destruct (deliver_owed e w Hw) as [Hw' Hle].
    destruct (IH (deliver e w) Hw') as [Hw'' Hle'].
    change (run (e :: evs) w) with (run evs (deliver e w)).
    split; [assumption|].
    unfold triggers in *. simpl. destruct (is_trigger e); simpl; lia.
Qed.

(** C1, as the code has it.  Over any sequence of stimuli, the callback is
    called at most as often as the environment reports a failed
    acquisition, an error on the event stream or a ['closed'] event; the
    redirect hook, other events and the timer add no call of their own.  So
    it is called at most once when there is at most one such report. *)
Theorem callback_calls_bounded_by_triggers :
  forall (platform : jsstring) (now : N) (url : jsstring) (callback : jsval)
         (evs : list Event),
    length (invocations (trace (attempt platform now url callback evs)))
    <= triggers evs.
Proof.
  intros platform now url callback evs. unfold attempt.
  set (w0 := exec (authorize url callback) (loaded platform now)).
  assert (H0 : well_placed w0 = true /\ owed w0 = 0).
  { subst w0. unfold authorize.
    destruct (negb (truthy callback)
              || negb (str_eqb (typeof callback) (lit "function")));
      split; reflexivity. }
  destruct H0 as [Hw Ho].
  destruct (run_owed evs w0 Hw) as [_ Hle].
  rewrite Ho in Hle. unfold owed in Hle. simpl in Hle. lia.
Qed.

(** C1, as stated, fails: with a callable callback, on iOS a confirmed
    cancellation followed by an error on the event stream calls the
    callback a second time; so do two errors in a row on any platform. *)
Lemma callback_called_twice :
  typeof someCallback = lit "function" /\
  invocations
    (trace (attempt (lit "ios") 0 someUrl someCallback
              [AgentReady JNull someAgent;
               OpenEvent JNull closedEvent;
               OpenEvent NetworkDown JUndefined]))
  = [(someCallback, [JError (lit "user canceled")]);
     (someCallback, [NetworkDown])] /\
  ~ length
      (invocations
         (trace (attempt (lit "ios") 0 someUrl someCallback
                   [AgentReady JNull someAgent;
                    OpenEvent JNull closedEvent;
                    OpenEvent NetworkDown JUndefined]))) <= 1 /\
  invocations
    (trace (attempt (lit "android") 0 someUrl someCallback
              [AgentReady JNull someAgent;
               OpenEvent NetworkDown JUndefined;
               OpenEvent NetworkDown JUndefined]))
  = [(someCallback, [NetworkDown]); (someCallback, [NetworkDown])].
Proof.
  repeat split; try reflexivity.
  vm_compute. lia.
Qed.

(* ================================================================== *)
(** ** The provider's login operations *)
(* ================================================================== *)

Lemma authorize_logOutcome (url : jsstring) (w : World) :
  authorize url logOutcome w =
  (Normal JUndefined,
   record GetAgent (set_acquirer (Some (OnAgent url logOutcome)) w)).
Proof. reflexivity. Qed.

Lemma nativeLogIn_eq (client : Auth0Client) (options : option Options)
      (w : World) :
  nativeLogIn client options w =
  let o := toAuth0LoginRedirectOptions options in
  match buildAuthorizeUrl_answer client o with
  | Normal url =>
      (Normal tt,
       exec (authorize url logOutcome) (record (ClientBuildAuthorizeUrl o) w))
  | Throw e => (Throw e, record (ClientBuildAuthorizeUrl o) w)
  end.
Proof.
  unfold nativeLogIn, bind, client_buildAuthorizeUrl. cbv zeta.
  destruct (buildAuthorizeUrl_answer client _); reflexivity.
Qed.

(** C8.  [loginWithRedirect] with [isNative] set asks the delegated client
    for the authorize URL and hands that URL to [authorize]; it never calls
    the client's [loginWithRedirect].  Without [isNative] it calls the
    client's [loginWithRedirect] and nothing of the coordinator. *)
Theorem loginWithRedirect_routes_by_isNative :
  forall (client : Auth0Client) (clientOpts : ClientOpts)
         (options : option Options) (w : World),
    let o := toAuth0LoginRedirectOptions options in
    let w' := exec (loginWithRedirect client clientOpts options) w in
    if isNative clientOpts then
      match buildAuthorizeUrl_answer client o with
      | Normal url =>
          loginWithRedirect client clientOpts options w =
          (Normal tt,
           exec (authorize url logOutcome)
                (record (ClientBuildAuthorizeUrl o) w)) /\
          trace w' = trace w ++ [ClientBuildAuthorizeUrl o; GetAgent] /\
          acquirer w' = Some (OnAgent url logOutcome)
      | Throw e =>
          loginWithRedirect client clientOpts options w =
          (Throw e, record (ClientBuildAuthorizeUrl o) w) /\
          trace w' = trace w ++ [ClientBuildAuthorizeUrl o]
      end
    else
      loginWithRedirect client clientOpts options w =
      (loginWithRedirect_answer client o,
       record (ClientLoginWithRedirect o) w) /\
      trace w' = trace w ++ [ClientLoginWithRedirect o].
Proof.
  intros client clientOpts options w. cbv zeta.
  unfold loginWithRedirect, exec. destruct (isNative clientOpts).
  - rewrite nativeLogIn_eq. cbv zeta.
    destruct (buildAuthorizeUrl_answer client _) as [url|e].
    + unfold exec. rewrite authorize_logOutcome. simpl.
      rewrite <- app_assoc. repeat split; reflexivity.
    + split; reflexivity.
  - split; reflexivity.
Qed.

Lemma tokens_DEFAULT_SCOPE :
  tokens DEFAULT_SCOPE = [lit "openid"; lit "profile"; lit "email"].
Proof. reflexivity. Qed.

(** The scope [getUniqueScopes(DEFAULT_SCOPE, x)] starts with the three
    default scopes, whatever [x] is. *)
Lemma getUniqueScopes_default_first (x : jsstring) :
  exists rest,
    tokens (getUniqueScopes [DEFAULT_SCOPE; x])
    = lit "openid" :: lit "profile" :: lit "email" :: rest.
Proof.
  rewrite getUniqueScopes_tokens, tokens_join_sp.
  rewrite flat_map_tokens_id
    by apply first_occurrences_tokens, flat_map_tokens_are_tokens.
  rewrite <- dedupe_first_occurrences. unfold dedupe.
  cbn [flat_map]. rewrite tokens_DEFAULT_SCOPE, app_nil_r, fold_left_app.
  change (fold_left set_add [lit "openid"; lit "profile"; lit "email"] [])
    with [lit "openid"; lit "profile"; lit "email"].
  rewrite fold_set_add. eexists. reflexivity.
Qed.

(** C10.  With [isNative] set, [tryGetAccessTokenWithPopupOrReLogin] starts
    a native login whose scope begins with [openid profile email] and
    resolves with [null], or rejects; it never resolves with a token and
    never asks the client for one.  Without [isNative] its result is the
    token of [getAccessTokenWithPopup]. *)
Theorem tryGetAccessToken_native_resolves_null :
  forall (client : Auth0Client) (clientOpts : ClientOpts)
         (tokenError : jsval -> jsval) (userUpdatedAt : option jsstring)
         (opts : option Options) (w : World),
    let call :=
      tryGetAccessTokenWithPopupOrReLogin client clientOpts tokenError
                                          userUpdatedAt opts in
    let options := reLoginOptions clientOpts opts in
    let o := toAuth0LoginRedirectOptions (Some options) in
    (isNative clientOpts = true ->
       call w =
         match buildAuthorizeUrl_answer client o with
         | Normal url =>
             (Normal JNull,
              exec (authorize url logOutcome)
                   (record (ClientBuildAuthorizeUrl o) w))
         | Throw e =>
             (Throw (tokenError e), record (ClientBuildAuthorizeUrl o) w)
         end /\
       (forall token, outcome call w <> Normal (JStr token)) /\
       (forall a, In a (trace (exec call w)) ->
                  In a (trace w) \/ a = ClientBuildAuthorizeUrl o \/ a = GetAgent) /\
       exists s rest,
         scope options = Some s /\
         (forall o', o = Some o' -> scope o' = Some s) /\
         tokens s = lit "openid" :: lit "profile" :: lit "email" :: rest) /\
    (isNative clientOpts = false ->
       call w =
         bind (getAccessTokenWithPopup client tokenError userUpdatedAt opts
                                       JUndefined)
              (fun token => ret (JStr token)) w /\
       outcome call w =
         match getTokenWithPopup_answer client opts JUndefined with
         | Normal token =>
             match getUser_answer client with
             | Normal _ => Normal (JStr token)
             | Throw e => Throw e
             end
         | Throw e => Throw (tokenError e)
         end).
Proof.
  intros client clientOpts tokenError userUpdatedAt opts w. cbv zeta.
  unfold tryGetAccessTokenWithPopupOrReLogin. split; intros Hn; rewrite Hn.
  - cbn [negb].
    assert (Hscope : exists s rest,
               scope (reLoginOptions clientOpts opts) = Some s /\
               (forall o',
                   toAuth0LoginRedirectOptions
                     (Some (reLoginOptions clientOpts opts)) = Some o' ->
                   scope o' = Some s) /\
               tokens s = lit "openid" :: lit "profile" :: lit "email" :: rest).
    { unfold reLoginOptions. cbv zeta. cbn [scope].
      match goal with
      | |- context [getUniqueScopes [DEFAULT_SCOPE; ?x]] =>
          destruct (getUniqueScopes_default_first x) as [rest Hr]
      end.
      eexists. exists rest. split; [reflexivity|]. split; [|exact Hr].
      intros o' Ho'. injection Ho' as <-. reflexivity. }
    unfold outcome, exec, try_catch, bind. rewrite !nativeLogIn_eq. cbv zeta.
    destruct (buildAuthorizeUrl_answer client _) as [url|e].
    + rewrite authorize_logOutcome. simpl.
      split; [reflexivity|]. split; [discriminate|]. split; [|exact Hscope].
      intros a Ha. rewrite <- app_assoc in Ha.
      apply in_app_or in Ha as [Ha|Ha]; [left; assumption|].
      simpl in Ha. intuition auto.
    + simpl.
      split; [reflexivity|]. split; [discriminate|]. split; [|exact Hscope].
      intros a Ha.
      apply in_app_or in Ha as [Ha|Ha]; [left; assumption|].
      simpl in Ha. intuition auto.
  - cbn [negb]. split; [reflexivity|].
    unfold outcome, bind, getAccessTokenWithPopup, bind, try_catch,
      client_getTokenWithPopup, client_getUser.
    destruct (getTokenWithPopup_answer client opts JUndefined) as [token|e];
      [|reflexivity].
    destruct (getUser_answer client) as [user|e]; [|reflexivity].
    destruct (negb _); reflexivity.
Qed.

Lemma sample_client_token_routes :
  outcome (tryGetAccessTokenWithPopupOrReLogin sampleClient nativeOpts
             sampleTokenError None None) (loaded (lit "ios") 0)
  = Normal JNull
  /\
  outcome (tryGetAccessTokenWithPopupOrReLogin sampleClient webOpts
             sampleTokenError None None) (loaded (lit "ios") 0)
  = Normal (JStr (lit "opaque-access-token")).
Proof.
  split.
  - exact (f_equal fst (proj1 (proj1
      (tryGetAccessToken_native_resolves_null sampleClient nativeOpts
         sampleTokenError None None (loaded (lit "ios") 0)) eq_refl))).
  - exact (proj2 (proj2
      (tryGetAccessToken_native_resolves_null sampleClient webOpts
         sampleTokenError None None (loaded (lit "ios") 0)) eq_refl)).
Defined.

(* ================================================================== *)
(** ** Further properties of the coordinator *)
(* ================================================================== *)

Lemma authorize_well_placed (platform : jsstring) (now : N) (url : jsstring)
      (callback : jsval) :
  let w0 := exec (authorize url callback) (loaded platform now) in
  well_placed w0 = true /\ owed w0 = 0.
Proof.
  cbv zeta. unfold authorize.
  destruct (negb (truthy callback)
            || negb (str_eqb (typeof callback) (lit "function")));
    split; reflexivity.
Qed.

(** X1.  An attempt that sees no failed acquisition, no error on the event
    stream and no ['closed'] event never calls the callback: in particular
    a redirect, which ends a successful login, does not reach it. *)
Theorem attempt_without_trigger_never_calls_back :
  forall (platform : jsstring) (now : N) (url : jsstring) (callback : jsval)
         (evs : list Event),
    triggers evs = 0 ->
    invocations (trace (attempt platform now url callback evs)) = [].
Proof.
  intros platform now url callback evs Hz. unfold attempt.
  destruct (authorize_well_placed platform now url callback) as [Hw Ho].
  destruct (run_owed evs _ Hw) as [_ Hle].
  rewrite Ho, Hz in Hle. unfold owed in Hle.
  destruct (invocations _); [reflexivity | simpl in Hle; lia].
Qed.

Lemma redirected_login_never_calls_back :
  invocations
    (trace (attempt (lit "android") 0 someUrl someCallback
              [AgentReady JNull someAgent; OpenEvent JNull loadedEvent;
               RedirectUri (lit "app://callback?code=1"); Elapse 5000]))
  = [].
Proof.
  exact (attempt_without_trigger_never_calls_back (lit "android") 0 someUrl
           someCallback
           [AgentReady JNull someAgent; OpenEvent JNull loadedEvent;
            RedirectUri (lit "app://callback?code=1"); Elapse 5000] eq_refl).
Defined.



(** X3.  A report that carries no error and is not ['closed'] (['loaded'],
    any other event, or no event object at all) changes nothing. *)
Theorem other_events_are_ignored :
  forall (callback error result : jsval) (w : World),
    listener w = Some (OnOpenEvent callback) ->
    nullish error = true ->
    is_closed result = false ->
    deliver (OpenEvent error result) w = w.
Proof.
  intros callback error result w Hl Hn Hc.
  unfold deliver. rewrite Hl. unfold turn, exec, apply.
  destruct (onOpenEvent_ignored callback error result w Hn Hc) as [c ->].
  reflexivity.
Qed.

Lemma loaded_event_is_ignored :
  deliver (OpenEvent JNull loadedEvent) (openedOn (lit "ios"))
  = openedOn (lit "ios").
Proof.
  exact (other_events_are_ignored someCallback JNull loadedEvent
           (openedOn (lit "ios")) eq_refl eq_refl eq_refl).
Defined.

(* ------------------------------------------------------------------ *)
(** *** An answer from [getAgent] with neither error nor agent *)

Lemma deliver_stranded (agent : jsval) (e : Event) (w : World) :
  nullish agent = true -> stranded agent w ->
  exists t, deliver e w = set_clock t w.
Proof.
  intros Hag (Ha & Hl & Ht & Hs).
  destruct e as [err ag|error result|url|ms].
  - exists (clock w). simpl. rewrite Ha. destruct w; reflexivity.
  - exists (clock w). simpl. rewrite Hl. destruct w; reflexivity.
  - exists (clock w). simpl.
    unfold turn, exec, onRedirectUri, bind, gets. rewrite Hs. cbn [current apply].
    unfold onRedirect, agent_close, bind. rewrite Hag.
    destruct w; reflexivity.
  - exists (clock w + ms)%N. simpl. unfold elapse. rewrite Ht. simpl.
    apply set_clock_same_timers. assumption.
Qed.

Lemma run_stranded (agent : jsval) (evs : list Event) (w : World) :
  nullish agent = true -> stranded agent w ->
  exists t, run evs w = set_clock t w.
Proof.
  intros Hag. revert w. induction evs as [|e evs IH]; intros w Hs.
  - exists (clock w). destruct w; reflexivity.
  - destruct (deliver_stranded agent e w Hag Hs) as [t Ht].
    change (run (e :: evs) w) with (run evs (deliver e w)). rewrite Ht.
    destruct (IH (set_clock t w)) as [t' Ht'].
    + destruct Hs as (Ha & Hl & Hts & Hss). repeat split; assumption.
    + exists t'. rewrite Ht'. reflexivity.
Qed.

(** X4.  If [getAgent] answers with a falsy [err] and no agent,
    [session.start] has already run when [agent.open] fails: the store
    stays marked as authorizing, nothing is opened, and whatever happens
    afterwards the callback is never called. *)
Theorem missing_agent_strands_the_attempt :
  forall (platform : jsstring) (now : N) (url : jsstring)
         (callback err agent : jsval) (evs : list Event),
    typeof callback = lit "function" ->
    truthy err = false ->
    nullish agent = true ->
    let w := attempt platform now url callback (AgentReady err agent :: evs) in
    trace w = [SessionClean; GetAgent; SessionStart] /\
    isAuthorizing (session w) = true /\
    listener w = None /\
    invocations (trace w) = [].
Proof.
  intros platform now url callback err agent evs Hf He Ha. cbv zeta.
  apply typeof_function in Hf as [id ->].
  unfold attempt.
  change (run (AgentReady err agent :: evs) ?w)
    with (run evs (deliver (AgentReady err agent) w)).
  set (w1 := deliver _ _).
  assert (Hw1 : w1 = mkWorld (mkSession true false (Some (OnRedirect agent)))
                       platform now [] None None
                       [SessionClean; GetAgent; SessionStart]).
  { subst w1. unfold deliver, loaded, exec, authorize. simpl.
    unfold turn, exec, onAgent, arg. cbn [nth]. rewrite He.
    unfold bind, SessionStore.start, modify, agent_open. rewrite Ha.
    reflexivity. }
  destruct (run_stranded agent evs w1 Ha) as [t Ht].
  { rewrite Hw1. repeat split. }
  rewrite Ht, Hw1. simpl. repeat split.
Qed.

Lemma undefined_agent_strands_the_attempt :
  isAuthorizing
    (session (attempt (lit "android") 0 someUrl someCallback
                [AgentReady JNull JUndefined;
                 RedirectUri (lit "app://callback"); Elapse 5000]))
  = true.
Proof.
  exact (proj1 (proj2
    (missing_agent_strands_the_attempt (lit "android") 0 someUrl someCallback
       JNull JUndefined [RedirectUri (lit "app://callback"); Elapse 5000]
       eq_refl eq_refl eq_refl))).
Defined.

(* ------------------------------------------------------------------ *)
(** *** Several ['closed'] reports, and an error inside the window *)

Lemma fire_all_not_closing (ts : list Timer) (w : World) :
  forallb is_HandleClose ts = true ->
  isClosing (session w) = false ->
  fold_left fire ts w = w.
Proof.
  induction ts as [|t ts IH]; simpl; intros Hts Hc; [reflexivity|].
  apply andb_true_iff in Hts as [Ht Hts].
  destruct t as [d h]. unfold is_HandleClose in Ht. simpl in Ht.
  destruct h as [| | |callback]; try discriminate.
  unfold fire at 2. unfold turn, exec. cbn [handler apply].
  rewrite handleClose_not_closing by assumption. simpl.
  apply IH; assumption.
Qed.

Lemma run_closed_reports (callback : jsval) (evs : list Event) (w : World) :
  listener w = Some (OnOpenEvent callback) ->
  os w <> lit "ios" ->
  forallb is_closed_report evs = true ->
  let w' := run evs w in
  listener w' = listener w /\ clock w' = clock w /\
  timers w' = timers w
              ++ map (fun _ => mkTimer (clock w + 1000) (HandleClose callback))
                     evs /\
  invocations (trace w') = invocations (trace w) /\
  (evs <> [] -> isClosing (session w') = true).
Proof.
  revert w. induction evs as [|e evs IH]; intros w Hl Hos Hall; cbv zeta.
  - simpl. rewrite app_nil_r. repeat split. congruence.
  - simpl in Hall. apply andb_true_iff in Hall as [He Hall].
    destruct e as [| error result | |]; try discriminate.
    simpl in He. apply andb_true_iff in He as [Hn Hc].
    change (run (OpenEvent error result :: evs) w)
      with (run evs (deliver (OpenEvent error result) w)).
    pose proof (closed_off_ios callback error result w Hl Hn Hc Hos) as E.
    set (w1 := deliver (OpenEvent error result) w) in *.
    assert (Hl1 : listener w1 = Some (OnOpenEvent callback))
      by (rewrite E; simpl; assumption).
    assert (Hos1 : os w1 <> lit "ios") by (rewrite E; simpl; assumption).
    destruct (IH w1 Hl1 Hos1 Hall) as (Hli & Hcl & Hti & Hin & Hcs).
    assert (Hc1 : clock w1 = clock w) by (rewrite E; reflexivity).
    assert (Ht1 : timers w1 = timers w
                  ++ [mkTimer (clock w + 1000) (HandleClose callback)])
      by (rewrite E; reflexivity).
    assert (Hi1 : invocations (trace w1) = invocations (trace w)).
    { rewrite E. simpl. rewrite <- !app_assoc, invocations_app. simpl.
      apply app_nil_r. }
    assert (Hs1 : isClosing (session w1) = true) by (rewrite E; reflexivity).
    repeat split.
    + rewrite Hli, Hl1, Hl. reflexivity.
    + congruence.
    + rewrite Hti, Ht1, Hc1, <- app_assoc. reflexivity.
    + congruence.
    + intros _. destruct evs as [|e' evs']; [exact Hs1|].
      apply Hcs. discriminate.
Qed.

Lemma filter_all_due (now : N) (t : Timer) {A} (l : list A) :
  is_due now t = true ->
  filter (is_due now) (map (fun _ => t) l) = map (fun _ => t) l /\
  filter (fun x => negb (is_due now x)) (map (fun _ => t) l) = [].
Proof.
  intros H. induction l as [|x l [IH1 IH2]]; simpl; [split; reflexivity|].
  rewrite H, IH1, IH2. split; reflexivity.
Qed.

Lemma forallb_map_const {A} (t : Timer) (l : list A) :
  is_HandleClose t = true ->
  forallb is_HandleClose (map (fun _ => t) l) = true.
Proof.
  intros H. induction l as [|x l IH]; simpl; [reflexivity|].
  rewrite H, IH. reflexivity.
Qed.

(** X5.  Off iOS, any number of ['closed'] reports in a row followed by
    1000 ms or more produce exactly one cancellation: the first timer cleans
    the store and calls back, the others find [isClosing] cleared. *)
Theorem repeated_closed_cancels_once :
  forall (callback : jsval) (evs : list Event) (ms : N) (w : World),
    listener w = Some (OnOpenEvent callback) ->
    os w <> lit "ios" ->
    timers w = [] ->
    evs <> [] ->
    forallb is_closed_report evs = true ->
    (1000 <= ms)%N ->
    let w' := deliver (Elapse ms) (run evs w) in
    invocations (trace w')
    = invocations (trace w) ++ [(callback, [JError (lit "user canceled")])] /\
    session w' = SessionStore.clean_state /\
    timers w' = [].
Proof.
  intros callback evs ms w Hl Hos Hts Hne Hall Hms. cbv zeta.
  destruct (run_closed_reports callback evs w Hl Hos Hall)
    as (_ & Hcl & Hti & Hin & Hcs).
  specialize (Hcs Hne). rewrite Hts in Hti. simpl in Hti.
  set (w1 := run evs w) in *. set (t := mkTimer _ _) in Hti.
  assert (Hdue : is_due (clock w1 + ms) t = true).
  { unfold is_due, t. simpl. apply N.leb_le. lia. }
  simpl deliver. set (w' := elapse ms w1).
  eassert (Hw' : w' = _).
  { subst w'. unfold elapse. rewrite Hti.
    destruct (filter_all_due (clock w1 + ms) t evs Hdue) as [-> ->].
    destruct evs as [|e evs]; [congruence|].
    cbn [map fold_left]. unfold fire at 2. unfold turn, exec, t.
    cbn [handler apply].
    rewrite handleClose_closing by (simpl; assumption).
    cbn [snd]. fold t.
    rewrite fire_all_not_closing;
      [| apply forallb_map_const; reflexivity | reflexivity].
    reflexivity. }
  clearbody w'. subst w'.
  simpl. rewrite <- app_assoc, invocations_app, Hin. repeat split.
Qed.

Lemma two_closed_reports_cancel_once :
  invocations
    (trace (deliver (Elapse 1500)
              (run [OpenEvent JNull closedEvent; OpenEvent JNull closedEvent]
                   (openedOn (lit "android")))))
  = invocations (trace (openedOn (lit "android")))
    ++ [(someCallback, [JError (lit "user canceled")])].
Proof.
  exact (proj1
    (repeated_closed_cancels_once someCallback
       [OpenEvent JNull closedEvent; OpenEvent JNull closedEvent] 1500%N
       (openedOn (lit "android")) eq_refl ltac:(discriminate) eq_refl
       ltac:(discriminate) eq_refl ltac:(discriminate))).
Defined.

(** X6.  Off iOS, an error reported inside the 1000 ms window of a
    ['closed'] report wins: the callback is called once, with that error,
    and the timer that runs later finds [isClosing] cleared. *)
Theorem error_in_window_preempts_cancel :
  forall (callback error result failure other : jsval) (ms1 ms2 : N)
         (w : World),
    listener w = Some (OnOpenEvent callback) ->
    nullish error = true ->
    is_closed result = true ->
    os w <> lit "ios" ->
    timers w = [] ->
    nullish failure = false ->
    (ms1 < 1000)%N ->
    (1000 <= ms1 + ms2)%N ->
    let w' := run [OpenEvent error result; Elapse ms1;
                   OpenEvent failure other; Elapse ms2] w in
    trace w' = trace w ++ [SessionClosing; GetOS; SetTimeout 1000;
                           SessionClean; Invoke callback [failure]] /\
    session w' = SessionStore.clean_state /\
    timers w' = [].
Proof.
  intros callback error result failure other ms1 ms2 w
         Hl Hn Hc Hos Hts Hf H1 H2. cbv zeta.
  set (w' := run _ _).
  eassert (Hw' : w' = _).
  { subst w'. unfold run. cbn [fold_left].
    rewrite (closed_off_ios callback error result w Hl Hn Hc Hos).
    rewrite Hts. cbn [app]. cbn [deliver].
    rewrite (elapse_single_pending _ (mkTimer (clock w + closingDelayMs)
                                              (HandleClose callback)) ms1)
      by (simpl; unfold closingDelayMs; try reflexivity; lia).
    cbn [listener set_clock record set_timers set_session]. rewrite Hl.
    unfold turn, exec. cbn [apply].
    rewrite onOpenEvent_error by assumption. cbn [snd].
    rewrite (elapse_single_due _ (mkTimer (clock w + closingDelayMs)
                                          (HandleClose callback)) ms2)
      by (simpl; unfold closingDelayMs; try reflexivity; lia).
    unfold fire, turn, exec. cbn [handler apply].
    rewrite handleClose_not_closing by reflexivity. reflexivity. }
  clearbody w'. subst w'. simpl. rewrite <- !app_assoc. repeat split.
Qed.

Lemma error_400ms_after_closed_preempts_cancel :
  invocations
    (trace (run [OpenEvent JNull closedEvent; Elapse 400;
                 OpenEvent NetworkDown JUndefined; Elapse 600]
                (openedOn (lit "android"))))
  = [(someCallback, [NetworkDown])].
Proof.
  exact (f_equal invocations (proj1
    (error_in_window_preempts_cancel someCallback JNull closedEvent
       NetworkDown JUndefined 400%N 600%N (openedOn (lit "android"))
       eq_refl eq_refl eq_refl ltac:(discriminate) eq_refl eq_refl
       eq_refl ltac:(discriminate)))).
Defined.

(* ------------------------------------------------------------------ *)
(** *** The store is clean after every call of the callback *)

Lemma deliver_quiet (e : Event) (w : World) :
  listener w = None -> current (session w) = None -> timers w = [] ->
  (forall err agent, e <> AgentReady err agent) ->
  exists t, deliver e w = set_clock t w.
Proof.
  intros Hl Hc Ht Hne. destruct e as [err agent|error result|url|ms].
  - elim (Hne err agent). reflexivity.
  - exists (clock w). simpl. rewrite Hl. destruct w; reflexivity.
  - exists (clock w). simpl.
    unfold turn, exec, onRedirectUri, bind, gets. rewrite Hc.
    destruct w; reflexivity.
  - exists (clock w + ms)%N. simpl. unfold elapse. rewrite Ht. simpl.
    apply set_clock_same_timers. assumption.
Qed.

Lemma fire_all_acquirer (ts : list Timer) (w : World) :
  forallb is_HandleClose ts = true ->
  acquirer (fold_left fire ts w) = acquirer w.
Proof.
  revert w. induction ts as [|t ts IH]; intros w Hts; simpl; [reflexivity|].
  simpl in Hts. apply andb_true_iff in Hts as [Ht Hts].
  rewrite (IH _ Hts).
  destruct t as [d h]. unfold is_HandleClose in Ht. simpl in Ht.
  destruct h as [| | |callback]; try discriminate.
  unfold fire, turn, exec. cbn [handler apply].
  destruct (isClosing (session w)) eqn:E.
  - rewrite handleClose_closing by assumption. reflexivity.
  - rewrite handleClose_not_closing by assumption. reflexivity.
Qed.

(** Stimuli other than the agent's arrival leave the waiting acquisition
    callback alone. *)
Lemma deliver_acquirer (e : Event) (w : World) :
  well_placed w = true ->
  (forall err agent, e <> AgentReady err agent) ->
  acquirer (deliver e w) = acquirer w.
Proof.
  intros Hw Hne. apply well_placed_iff in Hw as (Ha & Hl & Hc & Hts).
  destruct e as [err agent|error result|url|ms]; cbn [deliver].
  - elim (Hne err agent). reflexivity.
  - destruct (listener w) as [k|] eqn:Ek; [|reflexivity].
    destruct k as [| |callback|]; try discriminate.
    unfold turn, exec. cbn [apply].
    destruct (nullish error) eqn:En.
    + destruct (is_closed result) eqn:Ecl.
      * rewrite onOpenEvent_closed by assumption. cbv zeta.
        destruct (str_eqb (os w) (lit "ios")); reflexivity.
      * destruct (onOpenEvent_ignored callback error result w En Ecl)
          as [c ->]. reflexivity.
    + rewrite onOpenEvent_error by assumption. reflexivity.
  - unfold turn, exec, onRedirectUri, bind, gets.
    destruct (current (session w)) as [k|] eqn:Ek; [|reflexivity].
    destruct k as [|agent| |]; try discriminate.
    cbn [apply]. unfold onRedirect, agent_close, bind.
    destruct (nullish agent); reflexivity.
  - unfold elapse. rewrite fire_all_acquirer; [reflexivity|].
    apply forallb_filter. assumption.
Qed.

Lemma authorize_settled (platform : jsstring) (now : N) (url : jsstring)
      (callback : jsval) :
  settled (exec (authorize url callback) (loaded platform now)).
Proof.
  split; [apply authorize_well_placed|].
  unfold authorize.
  destruct (negb (truthy callback)
            || negb (str_eqb (typeof callback) (lit "function")));
    intros _; repeat split.
Qed.

Lemma deliver_settled (e : Event) (w : World) :
  settled w -> settled (deliver e w).
Proof.
  intros [Hw Hq]. split; [apply deliver_owed; assumption|].
  destruct e as [err agent|error result|url|ms].
  - (* the agent is ready: nothing waits any more *)
    cbn [deliver]. destruct (acquirer w) as [k|] eqn:Ek; [|congruence].
    apply well_placed_iff in Hw as (Ha & _). rewrite Ek in Ha.
    destruct k as [u callback| | |]; try discriminate.
    unfold turn, exec. cbn [apply]. unfold onAgent, arg. cbn [nth].
    destruct (truthy err); [simpl; congruence|].
    unfold bind, SessionStore.start, modify, agent_open.
    destruct (nullish agent); simpl; congruence.
  - intros Hacq.
    rewrite deliver_acquirer in Hacq by (assumption || discriminate).
    destruct (Hq Hacq) as (Hs & Hl & Ht).
    destruct (deliver_quiet (OpenEvent error result) w Hl
                ltac:(rewrite Hs; reflexivity) Ht ltac:(discriminate))
      as [t ->].
    simpl. auto.
  - intros Hacq.
    rewrite deliver_acquirer in Hacq by (assumption || discriminate).
    destruct (Hq Hacq) as (Hs & Hl & Ht).
    destruct (deliver_quiet (RedirectUri url) w Hl
                ltac:(rewrite Hs; reflexivity) Ht ltac:(discriminate))
      as [t ->].
    simpl. auto.
  - intros Hacq.
    rewrite deliver_acquirer in Hacq by (assumption || discriminate).
    destruct (Hq Hacq) as (Hs & Hl & Ht).
    destruct (deliver_quiet (Elapse ms) w Hl
                ltac:(rewrite Hs; reflexivity) Ht ltac:(discriminate))
      as [t ->].
    simpl. auto.
Qed.

Lemma run_settled (evs : list Event) (w : World) :
  settled w -> settled (run evs w).
Proof.
  revert w. induction evs as [|e evs IH]; intros w Hs; [exact Hs|].
  change (run (e :: evs) w) with (run evs (deliver e w)).
  apply IH, deliver_settled, Hs.
Qed.

Lemma fire_all_calls_clean (ts : list Timer) (w : World) :
  forallb is_HandleClose ts = true ->
  invocations (trace (fold_left fire ts w)) = invocations (trace w) \/
  session (fold_left fire ts w) = SessionStore.clean_state.
Proof.
  revert w. induction ts as [|t ts IH]; intros w Hts; simpl; [left; reflexivity|].
  simpl in Hts. apply andb_true_iff in Hts as [Ht Hts].
  destruct t as [d h]. unfold is_HandleClose in Ht. simpl in Ht.
  destruct h as [| | |callback]; try discriminate.
  unfold fire at 2 4. unfold turn, exec. cbn [handler apply].
  destruct (isClosing (session w)) eqn:E.
  - rewrite handleClose_closing by assumption. cbn [snd].
    rewrite fire_all_not_closing by (assumption || reflexivity).
    right. reflexivity.
  - rewrite handleClose_not_closing by assumption. cbn [snd].
    apply IH. assumption.
Qed.

Lemma deliver_call_cleans (e : Event) (w : World) :
  settled w ->
  invocations (trace (deliver e w)) <> invocations (trace w) ->
  session (deliver e w) = SessionStore.clean_state.
Proof.
  intros [Hw Hq] Hcall. pose proof Hw as Hw0.
  apply well_placed_iff in Hw as (Ha & Hl & Hc & Hts).
  destruct e as [err agent|error result|url|ms]; cbn [deliver] in *.
  - destruct (acquirer w) as [k|] eqn:Ek; [|congruence].
    destruct (Hq ltac:(discriminate)) as (Hs & _).
    destruct k as [u callback| | |]; try discriminate.
    revert Hcall. unfold turn, exec. cbn [apply]. unfold onAgent, arg.
    cbn [nth]. destruct (truthy err).
    + intros _. simpl. assumption.
    + unfold bind, SessionStore.start, modify, agent_open.
      destruct (nullish agent); simpl; intros Hcall; elim Hcall;
        rewrite ?invocations_app; simpl; rewrite ?app_nil_r; reflexivity.
  - destruct (listener w) as [k|] eqn:Ek; [|congruence].
    destruct k as [| |callback|]; try discriminate.
    revert Hcall. unfold turn, exec. cbn [apply].
    destruct (nullish error) eqn:En.
    + destruct (is_closed result) eqn:Ecl.
      * rewrite onOpenEvent_closed by assumption. cbv zeta.
        destruct (str_eqb (os w) (lit "ios")); simpl; [reflexivity|].
        intros Hcall. elim Hcall.
        rewrite <- !app_assoc, invocations_app. simpl. apply app_nil_r.
      * destruct (onOpenEvent_ignored callback error result w En Ecl)
          as [c ->]. simpl. congruence.
    + rewrite onOpenEvent_error by assumption. reflexivity.
  - revert Hcall. unfold turn, exec, onRedirectUri, bind, gets.
    destruct (current (session w)) as [k|] eqn:Ek; [|simpl; congruence].
    destruct k as [|agent| |]; try discriminate.
    cbn [apply]. unfold onRedirect, agent_close, bind.
    destruct (nullish agent); simpl; [congruence | reflexivity].
  - unfold elapse in *.
    destruct (fire_all_calls_clean
                (filter (is_due (clock w + ms)) (timers w))
                (set_timers
                   (filter (fun t => negb (is_due (clock w + ms) t)) (timers w))
                   (set_clock (clock w + ms) w))
                (forallb_filter _ _ _ Hts)) as [Hsame|Hclean];
      [|assumption].
    elim Hcall. exact Hsame.
Qed.

(** X7.  In an attempt from a freshly loaded module, every turn in which
    the callback is called leaves the session store clean: the error and
    cancellation paths clean it first, and a failed acquisition happens
    before the store is started. *)
Theorem every_callback_leaves_store_clean :
  forall (platform : jsstring) (now : N) (url : jsstring) (callback : jsval)
         (evs : list Event) (e : Event),
    let w := attempt platform now url callback evs in
    invocations (trace (deliver e w)) <> invocations (trace w) ->
    session (deliver e w) = SessionStore.clean_state.
Proof.
  intros platform now url callback evs e. cbv zeta.
  apply deliver_call_cleans. unfold attempt.
  apply run_settled, authorize_settled.
Qed.

Lemma store_clean_after_error_during_login :
  session
    (deliver (OpenEvent NetworkDown JUndefined)
       (attempt (lit "android") 0 someUrl someCallback
          [AgentReady JNull someAgent; OpenEvent JNull closedEvent]))
  = SessionStore.clean_state.
Proof.
  exact (every_callback_leaves_store_clean (lit "android") 0 someUrl
           someCallback
           [AgentReady JNull someAgent; OpenEvent JNull closedEvent]
           (OpenEvent NetworkDown JUndefined) ltac:(discriminate)).
Defined.

(* ================================================================== *)
(** ** Further properties of [dedupe] and [getUniqueScopes] *)
(* ================================================================== *)

Lemma first_occurrences_NoDup_id (l : list jsstring) :
  NoDup l -> first_occurrences l = l.
Proof.
  induction 1 as [|x l Hx _ IH]; simpl; [reflexivity|].
  rewrite IH. f_equal. apply filter_all. intros y Hy.
  apply negb_true_iff, str_eqb_neq. congruence.
Qed.

(** X8.  [dedupe] returns an array without repetitions that holds exactly
    the elements of its argument, leaves an array without repetitions as
    it is, and never grows its argument. *)
Theorem dedupe_removes_only_repetitions :
  forall arr : list jsstring,
    NoDup (dedupe arr) /\
    (forall x, In x (dedupe arr) <-> In x arr) /\
    (NoDup arr -> dedupe arr = arr) /\
    dedupe (dedupe arr) = dedupe arr /\
    length (dedupe arr) <= length arr.
Proof.
  intros arr. rewrite !dedupe_first_occurrences.
  split; [apply first_occurrences_NoDup|].
  split; [intros x; apply first_occurrences_In|].
  split; [apply first_occurrences_NoDup_id|].
  split; [apply first_occurrences_idem|].
  induction arr as [|x r IH]; simpl; [lia|].
  pose proof (filter_length_le (fun y => negb (str_eqb y x))
                               (first_occurrences r)). lia.
Qed.

Lemma dedupe_keeps_distinct_scopes :
  dedupe [lit "openid"; lit "email"] = [lit "openid"; lit "email"].
Proof.
  refine (proj1 (proj2 (proj2
    (dedupe_removes_only_repetitions [lit "openid"; lit "email"]))) _).
  repeat constructor; simpl; intuition discriminate.
Defined.

Lemma first_occurrences_app (l1 l2 : list jsstring) :
  first_occurrences (l1 ++ l2)
  = first_occurrences l1
    ++ filter (fun y => negb (str_mem y (first_occurrences l1)))
              (first_occurrences l2).
Proof.
  rewrite <- (dedupe_first_occurrences (l1 ++ l2)). unfold dedupe.
  rewrite fold_left_app. fold (dedupe l1).
  rewrite dedupe_first_occurrences. apply fold_set_add.
Qed.

Lemma first_occurrences_absorb (l1 l2 : list jsstring) :
  first_occurrences (first_occurrences l1 ++ l2) = first_occurrences (l1 ++ l2).
Proof.
  rewrite !first_occurrences_app, first_occurrences_idem. reflexivity.
Qed.

(** X9.  Scopes can be merged step by step: merging an earlier result with
    further arguments gives what merging all the arguments at once gives. *)
Theorem getUniqueScopes_merges_incrementally :
  forall ss ts : list jsstring,
    getUniqueScopes (getUniqueScopes ss :: ts) = getUniqueScopes (ss ++ ts).
Proof.
  intros ss ts. rewrite !getUniqueScopes_tokens. f_equal.
  cbn [flat_map]. rewrite tokens_join_sp.
  rewrite flat_map_tokens_id
    by apply first_occurrences_tokens, flat_map_tokens_are_tokens.
  rewrite flat_map_app. apply first_occurrences_absorb.
Qed.

Lemma join_sp_nil_inv (l : list jsstring) :
  Forall (fun t => is_token t = true) l -> join_sp l = [] -> l = [].
Proof.
  intros Hall H. destruct l as [|t l]; [reflexivity|].
  inversion Hall as [|? ? Ht _]; subst.
  unfold is_token in Ht. apply andb_true_iff in Ht as [Hne _].
  destruct t as [|c t]; [discriminate|].
  destruct l; discriminate.
Qed.

(** X10.  [getUniqueScopes] returns the empty string exactly when none of
    its arguments holds a token: for no arguments, empty strings, or
    strings of white space only. *)
Theorem getUniqueScopes_empty_iff_no_token :
  forall ss : list jsstring,
    getUniqueScopes ss = [] <-> (forall s, In s ss -> tokens s = []).
Proof.
  intros ss. rewrite getUniqueScopes_tokens. split.
  - intros H s Hs.
    apply join_sp_nil_inv in H;
      [|apply first_occurrences_tokens, flat_map_tokens_are_tokens].
    destruct (tokens s) as [|t ts] eqn:E; [reflexivity|].
    assert (Hin : In t (first_occurrences (flat_map tokens ss))).
    { apply first_occurrences_In, in_flat_map. exists s.
      rewrite E. split; [assumption | left; reflexivity]. }
    rewrite H in Hin. destruct Hin.
  - intros H.
    assert (E : flat_map tokens ss = []).
    { induction ss as [|s ss IH]; [reflexivity|]. simpl.
      rewrite (H s (or_introl eq_refl)). apply IH.
      intros s' Hs'. apply H. right; assumption. }
    rewrite E. reflexivity.
Qed.

(* ================================================================== *)
(** ** Further properties of the provider *)
(* ================================================================== *)

(** X11.  The options of a re-login.  Without a scope from the caller or
    the configuration the scope is exactly the default scopes; a non-empty
    scope of the caller is merged with the defaults and the configured one
    is not consulted; an empty string counts as no scope.  The audience is
    the caller's when it is a non-empty string and the configured one
    otherwise.  The caller's other options are passed on. *)
Theorem reLoginOptions_scope_fallbacks :
  forall (clientOpts : ClientOpts) (opts : option Options),
    let given := match opts with Some o => scope o | None => None end in
    let wanted := match opts with Some o => audience o | None => None end in
    let o' := reLoginOptions clientOpts opts in
    (forall c s, given = Some (c :: s) ->
       scope o' = Some (getUniqueScopes [DEFAULT_SCOPE; c :: s])) /\
    (given = None \/ given = Some [] ->
     forall c s, co_scope clientOpts = Some (c :: s) ->
       scope o' = Some (getUniqueScopes [DEFAULT_SCOPE; c :: s])) /\
    (given = None \/ given = Some [] ->
     co_scope clientOpts = None \/ co_scope clientOpts = Some [] ->
       scope o' = Some DEFAULT_SCOPE) /\
    (forall c s, wanted = Some (c :: s) -> audience o' = Some (c :: s)) /\
    (wanted = None \/ wanted = Some [] ->
       audience o' = co_audience clientOpts) /\
    (forall o, opts = Some o ->
       redirectUri o' = redirectUri o /\ redirect_uri o' = redirect_uri o /\
       custom o' = custom o).
Proof.
  intros clientOpts opts. cbv zeta. unfold reLoginOptions.
  cbn [scope audience redirectUri redirect_uri custom].
  split; [|split; [|split; [|split; [|split]]]].
  - intros c s H. destruct opts as [o|]; [|discriminate].
    rewrite H. reflexivity.
  - intros H c s Hc. destruct opts as [o|]; simpl;
      destruct H as [H|H]; try discriminate; rewrite ?H, Hc; reflexivity.
  - intros H Hc. destruct opts as [o|]; simpl;
      destruct H as [H|H]; try discriminate; rewrite ?H;
      destruct Hc as [Hc|Hc]; rewrite Hc; reflexivity.
  - intros c s H. rewrite H. reflexivity.
  - intros [H|H]; rewrite H; reflexivity.
  - intros o ->. repeat split.
Qed.

Lemma reLogin_without_scope_asks_defaults :
  scope (reLoginOptions webOpts None) = Some DEFAULT_SCOPE.
Proof.
  exact (proj1 (proj2 (proj2
    (reLoginOptions_scope_fallbacks webOpts None)))
    (or_introl eq_refl) (or_introl eq_refl)).
Defined.

(** X12.  [getAccessTokenWithPopup]: a rejection of the popup is wrapped by
    [tokenError] and ends the call before the user is fetched; a rejection
    of [getUser] is passed on as it is; otherwise the client's token is
    returned, and [USER_UPDATED] is dispatched exactly when the user's
    [updated_at] differs from the one the provider holds. *)
Theorem getAccessTokenWithPopup_outcomes :
  forall (client : Auth0Client) (tokenError : jsval -> jsval)
         (userUpdatedAt : option jsstring) (opts : option Options)
         (config : jsval) (w : World),
    let r := getAccessTokenWithPopup client tokenError userUpdatedAt
                                     opts config w in
    match getTokenWithPopup_answer client opts config with
    | Throw e =>
        fst r = Throw (tokenError e) /\
        trace (snd r) = trace w ++ [ClientGetTokenWithPopup opts]
    | Normal token =>
        match getUser_answer client with
        | Throw e =>
            fst r = Throw e /\
            trace (snd r)
            = trace w ++ [ClientGetTokenWithPopup opts; ClientGetUser]
        | Normal user =>
            fst r = Normal token /\
            trace (snd r)
            = trace w ++ [ClientGetTokenWithPopup opts; ClientGetUser]
              ++ (if opt_str_eqb
                       (match user with
                        | Some u => updated_at u
                        | None => None
                        end) userUpdatedAt
                  then [] else [Dispatch (USER_UPDATED user)])
        end
    end.
Proof.
  intros client tokenError userUpdatedAt opts config w. cbv zeta.
  unfold getAccessTokenWithPopup, bind, try_catch,
    client_getTokenWithPopup, client_getUser.
  destruct (getTokenWithPopup_answer client opts config) as [token|e];
    [|split; reflexivity].
  destruct (getUser_answer client) as [user|e]; simpl;
    [|rewrite <- app_assoc; split; reflexivity].
  destruct (opt_str_eqb _ _); simpl; rewrite <- ?app_assoc;
    split; reflexivity.
Qed.




(** X14.  [loginWithPopup].  With [isNative] it is the native login: no
    popup, no dispatch.  Otherwise it dispatches [LOGIN_POPUP_STARTED] first;
    a rejected popup is logged, dispatched as [ERROR] and swallowed, and the
    user is not fetched; after a successful popup the user is fetched and
    [LOGIN_POPUP_COMPLETE] dispatched, but a rejection of [getUser] rejects
    the call with the flow left at [LOGIN_POPUP_STARTED]. *)
Theorem loginWithPopup_outcomes :
  forall (client : Auth0Client) (host : WebHost) (clientOpts : ClientOpts)
         (loginError : jsval -> jsval) (options : option Options)
         (config : jsval) (p : Page),
    let r := loginWithPopup client host clientOpts loginError options config p in
    if isNative clientOpts then
      fst r = fst (nativeLogIn client options (world p)) /\
      world (snd r) = snd (nativeLogIn client options (world p)) /\
      calls (snd r) = calls p
    else
      world (snd r) = world p /\
      match loginWithPopup_answer host options config with
      | Throw e =>
          fst r = Normal tt /\
          calls (snd r)
          = calls p ++ [DispatchAuth LOGIN_POPUP_STARTED;
                        ClientLoginWithPopup options config;
                        ConsoleError e;
                        DispatchAuth (ERROR (loginError e))]
      | Normal _ =>
          match getUser_answer client with
          | Normal user =>
              fst r = Normal tt /\
              calls (snd r)
              = calls p ++ [DispatchAuth LOGIN_POPUP_STARTED;
                            ClientLoginWithPopup options config;
                            ClientGetUserWeb;
                            DispatchAuth (LOGIN_POPUP_COMPLETE user)]
          | Throw e =>
              fst r = Throw e /\
              calls (snd r)
              = calls p ++ [DispatchAuth LOGIN_POPUP_STARTED;
                            ClientLoginWithPopup options config;
                            ClientGetUserWeb]
          end
      end.
Proof.
  intros client host clientOpts loginError options config p. cbv zeta.
  unfold loginWithPopup. destruct (isNative clientOpts).
  - unfold lift. destruct (nativeLogIn client options (world p)) as [c w'].
    repeat split.
  - unfold ptry, pbind, call, web_getUser, dispatchAuth, call, pret.
    cbn [calls world].
    destruct (loginWithPopup_answer host options config) as [[]|e].
    + destruct (getUser_answer client) as [user|e]; cbn;
        rewrite <- !app_assoc; repeat split.
    + cbn. rewrite <- !app_assoc. repeat split.
Qed.

(** X15.  [getAccessTokenSilently] treats its outcomes as
    [getAccessTokenWithPopup] does: a rejected token request is wrapped by
    [tokenError] before the user is fetched, a rejection of [getUser] is
    passed on, and [USER_UPDATED] is dispatched exactly when [updated_at]
    has changed. *)
Theorem getAccessTokenSilently_outcomes :
  forall (client : Auth0Client) (host : WebHost) (tokenError : jsval -> jsval)
         (userUpdatedAt : option jsstring) (opts : option Options) (p : Page),
    let r := getAccessTokenSilently client host tokenError userUpdatedAt
                                    opts p in
    world (snd r) = world p /\
    match getTokenSilently_answer host opts with
    | Throw e =>
        fst r = Throw (tokenError e) /\
        calls (snd r) = calls p ++ [ClientGetTokenSilently opts]
    | Normal token =>
        match getUser_answer client with
        | Throw e =>
            fst r = Throw e /\
            calls (snd r)
            = calls p ++ [ClientGetTokenSilently opts; ClientGetUserWeb]
        | Normal user =>
            fst r = Normal token /\
            calls (snd r)
            = calls p ++ [ClientGetTokenSilently opts; ClientGetUserWeb]
              ++ (if opt_str_eqb
                       (match user with
                        | Some u => updated_at u
                        | None => None
                        end) userUpdatedAt
                  then [] else [DispatchUser (USER_UPDATED user)])
        end
    end.
Proof.
  intros client host tokenError userUpdatedAt opts p. cbv zeta.
  unfold getAccessTokenSilently, ptry, pbind, call, web_getUser, call,
    pret, pthrow.
  cbn [calls world].
  destruct (getTokenSilently_answer host opts) as [token|e];
    [|repeat split].
  destruct (getUser_answer client) as [user|e]; cbn;
    [|rewrite <- !app_assoc; repeat split].
  destruct (opt_str_eqb _ _); cbn; rewrite <- ?app_assoc; repeat split.
Qed.

(* ------------------------------------------------------------------ *)
(** *** Property lists *)

Lemma lookup_obj_delete_same (k : jsstring) (o : Obj) :
  lookup_prop k (obj_delete k o) = JUndefined.
Proof.
  induction o as [|[k' v] r IH]; simpl; [reflexivity|].
  destruct (str_eqb k' k) eqn:E; simpl; [assumption|].
  rewrite E. assumption.
Qed.

Lemma lookup_obj_delete_other (k k0 : jsstring) (o : Obj) :
  k0 <> k -> lookup_prop k0 (obj_delete k o) = lookup_prop k0 o.
Proof.
  intros Hne. induction o as [|[k' v] r IH]; simpl; [reflexivity|].
  destruct (str_eqb k' k) eqn:E; simpl.
  - apply str_eqb_eq in E; subst k'.
    destruct (str_eqb k k0) eqn:E0; [|assumption].
    apply str_eqb_eq in E0. congruence.
  - rewrite IH. reflexivity.
Qed.

Lemma lookup_obj_replace (k k0 : jsstring) (v : jsval) (o : Obj) :
  has_prop k o = true ->
  lookup_prop k0 (obj_replace k v o)
  = if str_eqb k k0 then v else lookup_prop k0 o.
Proof.
  induction o as [|[k' v'] r IH]; simpl; [discriminate|].
  destruct (str_eqb k' k) eqn:E; simpl.
  - intros _. apply str_eqb_eq in E; subst k'.
    destruct (str_eqb k k0); reflexivity.
  - intros H. rewrite (IH H).
    destruct (str_eqb k' k0) eqn:E0; [|reflexivity].
    apply str_eqb_eq in E0; subst k'. rewrite (str_eqb_sym k k0), E.
    reflexivity.
Qed.

Lemma lookup_prop_absent (k : jsstring) (o : Obj) :
  has_prop k o = false -> lookup_prop k o = JUndefined.
Proof.
  induction o as [|[k' v] r IH]; simpl; [reflexivity|].
  destruct (str_eqb k' k); simpl; [discriminate | assumption].
Qed.

Lemma lookup_prop_app (k : jsstring) (o1 o2 : Obj) :
  lookup_prop k (o1 ++ o2)
  = if has_prop k o1 then lookup_prop k o1 else lookup_prop k o2.
Proof.
  induction o1 as [|[k' v] r IH]; simpl; [reflexivity|].
  destruct (str_eqb k' k); simpl; [reflexivity | assumption].
Qed.

Lemma lookup_obj_set (k k0 : jsstring) (v : jsval) (o : Obj) :
  lookup_prop k0 (obj_set k v o)
  = if str_eqb k k0 then v else lookup_prop k0 o.
Proof.
  unfold obj_set. destruct (has_prop k o) eqn:H.
  - apply lookup_obj_replace. assumption.
  - rewrite lookup_prop_app. simpl.
    destruct (str_eqb k k0) eqn:E.
    + apply str_eqb_eq in E; subst k0. rewrite H. reflexivity.
    + destruct (has_prop k0 o) eqn:H0; [reflexivity|].
      symmetry. apply lookup_prop_absent. assumption.
Qed.

Lemma lookup_obj_set_same (k : jsstring) (v : jsval) (o : Obj) :
  lookup_prop k (obj_set k v o) = v.
Proof. rewrite lookup_obj_set, str_eqb_refl. reflexivity. Qed.

Lemma lookup_obj_set_other (k k0 : jsstring) (v : jsval) (o : Obj) :
  k0 <> k -> lookup_prop k0 (obj_set k v o) = lookup_prop k0 o.
Proof.
  intros H. rewrite lookup_obj_set.
  destruct (str_eqb k k0) eqn:E; [|reflexivity].
  apply str_eqb_eq in E. congruence.
Qed.

(** X16.  [toAuth0ClientOptions] renames [clientId], [redirectUri] and
    [maxAge] to [client_id], [redirect_uri] and [max_age] (overriding any
    property already under these names), adds the [auth0Client] tag, and
    passes every other property on unchanged. *)
Theorem toAuth0ClientOptions_renames_and_passes_on :
  forall opts : Obj,
    let r := toAuth0ClientOptions opts in
    lookup_prop (lit "client_id") r = lookup_prop (lit "clientId") opts /\
    lookup_prop (lit "redirect_uri") r = lookup_prop (lit "redirectUri") opts /\
    lookup_prop (lit "max_age") r = lookup_prop (lit "maxAge") opts /\
    lookup_prop (lit "auth0Client") r
    = JObj [(lit "name", JStr (lit "auth0-react"));
            (lit "version", JStr (lit "1.3.0"))] /\
    lookup_prop (lit "clientId") r = JUndefined /\
    lookup_prop (lit "redirectUri") r = JUndefined /\
    lookup_prop (lit "maxAge") r = JUndefined /\
    (forall k, ~ In k client_option_names ->
               lookup_prop k r = lookup_prop k opts).
Proof.
  intros opts. cbv zeta. unfold toAuth0ClientOptions, __VERSION__.
  repeat split.
  - rewrite !lookup_obj_set_other by discriminate.
    apply lookup_obj_set_same.
  - rewrite !lookup_obj_set_other by discriminate.
    apply lookup_obj_set_same.
  - rewrite !lookup_obj_set_other by discriminate.
    apply lookup_obj_set_same.
  - apply lookup_obj_set_same.
  - rewrite !lookup_obj_set_other by discriminate.
    rewrite !lookup_obj_delete_other by discriminate.
    apply lookup_obj_delete_same.
  - rewrite !lookup_obj_set_other by discriminate.
    rewrite !lookup_obj_delete_other by discriminate.
    apply lookup_obj_delete_same.
  - rewrite !lookup_obj_set_other by discriminate.
    apply lookup_obj_delete_same.
  - intros k Hk. unfold client_option_names in Hk. simpl in Hk.
    rewrite !lookup_obj_set_other by (intros ->; apply Hk; tauto).
    rewrite !lookup_obj_delete_other by (intros ->; apply Hk; tauto).
    reflexivity.
Qed.

(** X17.  The options the provider builds its client from: [children],
    [skipRedirectCallback] and [onRedirectCallback] never reach the client,
    while every other property the application passes, [isNative] included,
    does. *)
Theorem auth0ClientOptionsOf_drops_provider_props :
  forall opts : Obj,
    let r := auth0ClientOptionsOf opts in
    lookup_prop (lit "children") r = JUndefined /\
    lookup_prop (lit "skipRedirectCallback") r = JUndefined /\
    lookup_prop (lit "onRedirectCallback") r = JUndefined /\
    lookup_prop (lit "isNative") r = lookup_prop (lit "isNative") opts /\
    lookup_prop (lit "client_id") r = lookup_prop (lit "clientId") opts /\
    (forall k,
        ~ In k client_option_names ->
        ~ In k [lit "children"; lit "skipRedirectCallback";
                lit "onRedirectCallback"] ->
        lookup_prop k r = lookup_prop k opts).
Proof.
  intros opts. cbv zeta.
  unfold auth0ClientOptionsOf, toAuth0ClientOptions, provider_clientOpts.
  repeat split.
  - rewrite !lookup_obj_set_other by discriminate.
    rewrite !lookup_obj_delete_other by discriminate.
    apply lookup_obj_delete_same.
  - rewrite !lookup_obj_set_other by discriminate.
    rewrite !lookup_obj_delete_other by discriminate.
    apply lookup_obj_delete_same.
  - rewrite !lookup_obj_set_other by discriminate.
    rewrite !lookup_obj_delete_other by discriminate.
    apply lookup_obj_delete_same.
  - rewrite !lookup_obj_set_other by discriminate.
    rewrite !lookup_obj_delete_other by discriminate. reflexivity.
  - rewrite !lookup_obj_set_other by discriminate.
    rewrite lookup_obj_set_same.
    rewrite !lookup_obj_delete_other by discriminate. reflexivity.
  - intros k Hk Hk'. unfold client_option_names in Hk. simpl in Hk, Hk'.
    rewrite !lookup_obj_set_other by (intros ->; apply Hk; tauto).
    rewrite !lookup_obj_delete_other
      by (intros ->; (apply Hk; tauto) || (apply Hk'; tauto)).
    reflexivity.
Qed.

Lemma sample_isNative_reaches_the_client :
  lookup_prop (lit "isNative") (toAuth0ClientOptions sampleProviderOpts)
  = JBool true.
Proof.
  refine (proj2 (proj2 (proj2 (proj2 (proj2 (proj2 (proj2
    (toAuth0ClientOptions_renames_and_passes_on sampleProviderOpts)))))))
    (lit "isNative") _).
  simpl. intuition discriminate.
Defined.

Lemma sample_domain_reaches_the_client :
  lookup_prop (lit "domain") (auth0ClientOptionsOf sampleProviderOpts)
  = JStr (lit "tenant.example").
Proof.
  refine (proj2 (proj2 (proj2 (proj2 (proj2
    (auth0ClientOptionsOf_drops_provider_props sampleProviderOpts)))))
    (lit "domain") _ _); simpl; intuition discriminate.
Defined.
